(** * markdown-transform: template parsers and the PdfMake visitor

    A shallow embedding of
    - [packages/markdown-template/lib/coreparsers.js] and
      [packages/markdown-template/lib/FromTemplate.js] (the template grammar
      compiler, built on the Parsimmon combinators), and
    - [packages/markdown-pdf/src/ToPdfMakeVisitor.js] (the CiceroMark to
      PdfMake visitor),
    followed by the properties of these functions. *)

From Stdlib Require Import String Ascii List Bool Arith ZArith Lia.
Import ListNotations.
Open Scope string_scope.
Set Warnings "-register-all".

(** ** Strings

    A JavaScript string is a [string]: its characters are those of
    [ascii], the code units below 256. *)

(** The two characters that cannot be written inside a literal. *)
Definition dquote : ascii := "034"%char.
Definition newline : ascii := "010"%char.
Definition DQ : string := String dquote EmptyString.
Definition NL : string := String newline EmptyString.

(** [input.slice(i, i + str.length) === str], on the rest of the input:
    the rest after [p] when [p] starts [s]. *)
Fixpoint strip_prefix (p s : string) : option string :=
  match p with
  | EmptyString => Some s
  | String a p' =>
      match s with
      | EmptyString => None
      | String b s' => if Ascii.eqb a b then strip_prefix p' s' else None
      end
  end.

(** [String.prototype.substring(start, end)]: both indices are clamped to
    [0, length] and swapped when [start > end]. *)
Definition clamp (len x : Z) : Z := Z.min (Z.max x 0) len.

Definition js_substring (s : string) (start end_ : Z) : string :=
  let len := Z.of_nat (String.length s) in
  let fs := clamp len start in
  let fe := clamp len end_ in
  let from := Z.min fs fe in
  let to := Z.max fs fe in
  String.substring (Z.to_nat from) (Z.to_nat (to - from)) s.

(** [parts.join(sep)] *)
Fixpoint join (sep : string) (parts : list string) : string :=
  match parts with
  | [] => EmptyString
  | [x] => x
  | x :: rest => x ++ sep ++ join sep rest
  end.

(** ** JavaScript values

    Plain data as the two programs build it: objects are association lists
    in insertion order, [VNum lexeme] stands for the double denoted by the
    numeric text [lexeme] (the result of [Number(lexeme)], or a numeric
    literal of the source). *)
Inductive jsval : Type :=
| VUndef
| VBool (b : bool)
| VNum (lexeme : string)
| VStr (s : string)
| VArr (elements : list jsval)
| VObj (fields : list (string * jsval)).

(** [typeof x === 'string'] *)
Definition is_string (x : jsval) : bool :=
  match x with VStr _ => true | _ => false end.

(** Truthiness.  It is asked of strings, objects and [undefined] only; a
    number, whose truthiness needs its value, is never tested. *)
Definition truthy (x : jsval) : bool :=
  match x with
  | VUndef => false
  | VBool b => b
  | VNum _ => true
  | VStr s => negb (String.eqb s EmptyString)
  | VArr _ => true
  | VObj _ => true
  end.

Fixpoint fields_get (k : string) (fs : list (string * jsval)) : jsval :=
  match fs with
  | [] => VUndef
  | (k', v) :: rest => if String.eqb k' k then v else fields_get k rest
  end.

(** [o[k] = v] on own properties: an existing key keeps its place. *)
Fixpoint fields_set (k : string) (v : jsval) (fs : list (string * jsval))
  : list (string * jsval) :=
  match fs with
  | [] => [(k, v)]
  | (k', v') :: rest =>
      if String.eqb k' k then (k, v) :: rest
      else (k', v') :: fields_set k v rest
  end.

(** [x.k]; a read on a value that is not an object gives [undefined] (on
    [undefined] itself it would throw: no value read below is). *)
Definition get (k : string) (x : jsval) : jsval :=
  match x with
  | VObj fs => fields_get k fs
  | _ => VUndef
  end.

(** The host's printing of numbers ([Number::toString] on the double denoted
    by a lexeme) is floating point; it is the one operation taken from the
    environment. *)
Class Host : Type := { numberToString : string -> string }.

Section Coercions.
Context {host : Host}.

(** [String(x)] / a template literal / a computed property key.  Objects
    are the plain records built below, which print as [[object Object]];
    [Array.prototype.join] prints [undefined] elements as empty. *)
Fixpoint ToString (x : jsval) : string :=
  match x with
  | VUndef => "undefined"
  | VBool true => "true"
  | VBool false => "false"
  | VNum lexeme => numberToString lexeme
  | VStr s => s
  | VArr xs =>
      join "," (map (fun e => match e with
                              | VUndef => EmptyString
                              | _ => ToString e
                              end) xs)
  | VObj _ => "[object Object]"
  end.

End Coercions.

(** ** Regular expressions

    The three regular expressions of [coreparsers.js] are written as syntax
    trees and run by a backtracking matcher with the priorities of the
    ECMAScript one: a quantifier is greedy, an alternation tries its left
    branch first, and the first way to match that the search finds is the
    match. *)
Inductive regex : Type :=
| Chr (c : ascii)                                   (* a literal character *)
| Dot                                               (* [.] *)
| Class (negated : bool) (ranges : list (ascii * ascii))   (* [[a-b]], [[^a]] *)
| Cat (r1 r2 : regex)
| Or (r1 r2 : regex)
| Star (r : regex)
| Plus (r : regex)
| Opt (r : regex).

Definition in_range (lo hi a : ascii) : bool :=
  Nat.leb (nat_of_ascii lo) (nat_of_ascii a)
  && Nat.leb (nat_of_ascii a) (nat_of_ascii hi).

Definition in_class (negated : bool) (ranges : list (ascii * ascii)) (a : ascii)
  : bool :=
  xorb negated (existsb (fun r => in_range (fst r) (snd r) a) ranges).

(** [.] matches every character but a line terminator. *)
Definition dot_char (a : ascii) : bool :=
  negb (Ascii.eqb a newline || Ascii.eqb a "013"%char).

Definition one_char (ok : ascii -> bool) (s : string)
  (k : string -> option string) : option string :=
  match s with
  | String a s' => if ok a then k s' else None
  | EmptyString => None
  end.

(** Greedy iteration of [step]: one more round first, the continuation as
    the fallback; a round that consumes nothing is rejected, as in
    ECMAScript. *)
Fixpoint iterate (step : string -> (string -> option string) -> option string)
  (fuel : nat) (s : string) (k : string -> option string) : option string :=
  match fuel with
  | O => k s
  | S fuel' =>
      match step s (fun s' =>
                      if Nat.ltb (String.length s') (String.length s)
                      then iterate step fuel' s' k else None) with
      | Some rest => Some rest
      | None => k s
      end
  end.

(** [exec r s k]: match [r] at the start of [s], then hand the rest to [k];
    the result is the rest of the input after the whole match. *)
Fixpoint exec (r : regex) (s : string) (k : string -> option string)
  : option string :=
  match r with
  | Chr c => one_char (Ascii.eqb c) s k
  | Dot => one_char dot_char s k
  | Class negated ranges => one_char (in_class negated ranges) s k
  | Cat r1 r2 => exec r1 s (fun s1 => exec r2 s1 k)
  | Or r1 r2 =>
      match exec r1 s k with
      | Some rest => Some rest
      | None => exec r2 s k
      end
  | Star r1 => iterate (exec r1) (String.length s) s k
  | Plus r1 =>
      exec r1 s (fun s1 => iterate (exec r1) (String.length s1) s1 k)
  | Opt r1 =>
      match exec r1 s k with
      | Some rest => Some rest
      | None => k s
      end
  end.

(** The text consumed, given the rest. *)
Definition consumed (s rest : string) : string :=
  String.substring 0 (String.length s - String.length rest) s.

Definition digit : regex := Class false [("0"%char, "9"%char)].

(** The regular expression of [stringLiteralParser]: a double quote, then
    [[^Q]*] with Q the double quote, then a double quote. *)
Definition re_string_literal : regex :=
  Cat (Chr dquote) (Cat (Star (Class true [(dquote, dquote)])) (Chr dquote)).

(** [/[0-9]+(.[0-9]+)?(e(\+|-)?[0-9]+)?/] *)
Definition re_double : regex :=
  Cat (Plus digit)
    (Cat (Opt (Cat Dot (Plus digit)))
       (Opt (Cat (Chr "e") (Cat (Opt (Or (Chr "+") (Chr "-"))) (Plus digit))))).

(** [/[0-9]+/] *)
Definition re_integer : regex := Plus digit.

(** ** Parsimmon

    The combinators of the [parsimmon] package that [coreparsers.js] calls.
    A parser consumes a prefix of the rest of the input (the text from the
    current index on) and yields a value and the new rest, or fails; a
    variadic combinator takes the list of its arguments.  The bookkeeping
    a failure carries (furthest position, expected tokens) plays no part
    in what follows and is left out. *)
Inductive reply (A : Type) : Type :=
| Success (v : A) (rest : string)
| Failure.
Arguments Success {A} v rest.
Arguments Failure {A}.

Definition parser (A : Type) : Type := string -> reply A.

Module P.

Definition string (str : String.string) : parser String.string :=
  fun input =>
    match strip_prefix str input with
    | Some rest => Success str rest
    | None => Failure
    end.

Definition regexp (re : regex) : parser String.string :=
  fun input =>
    match exec re input Some with
    | Some rest => Success (consumed input rest) rest
    | None => Failure
    end.

Definition fail {A : Type} : parser A := fun _ => Failure.

Definition map {A B : Type} (fn : A -> B) (self : parser A) : parser B :=
  fun input =>
    match self input with
    | Success v rest => Success (fn v) rest
    | Failure => Failure
    end.

(** [P.alt(p1, ..., pn)]: the first parser that succeeds; with no parser it
    is [P.fail]. *)
Fixpoint alt {A : Type} (parsers : list (parser A)) : parser A :=
  fun input =>
    match parsers with
    | [] => Failure
    | p :: rest =>
        match p input with
        | Success v r => Success v r
        | Failure => alt rest input
        end
    end.

(** [P.seq(p1, ..., pn)]: each parser on the rest left by the one before;
    the values in order. *)
Fixpoint seq {A : Type} (parsers : list (parser A)) : parser (list A) :=
  fun input =>
    match parsers with
    | [] => Success [] input
    | p :: rest =>
        match p input with
        | Failure => Failure
        | Success v r =>
            match seq rest r with
            | Failure => Failure
            | Success vs r' => Success (v :: vs) r'
            end
        end
    end.

(** [P.seqMap(p1, ..., pn, mapper)] *)
Definition seqMap {A B : Type} (parsers : list (parser A))
  (mapper : list A -> B) : parser B :=
  map mapper (seq parsers).

(** [self.wrap(left, right)] is
    [seqMap(left, self, right, (l, m) => m)]. *)
Definition wrap {A L R : Type} (self : parser A) (leftParser : parser L)
  (rightParser : parser R) : parser A :=
  fun input =>
    match leftParser input with
    | Failure => Failure
    | Success _ r1 =>
        match self r1 with
        | Failure => Failure
        | Success middle r2 =>
            match rightParser r2 with
            | Failure => Failure
            | Success _ r3 => Success middle r3
            end
        end
    end.

(** [self.parse(input)] runs [self.skip(P.eof)] from the start: the whole
    input has to be consumed. *)
Inductive outcome (A : Type) : Type :=
| Parsed (v : A)
| ParseError.
Arguments Parsed {A} v.
Arguments ParseError {A}.

Definition parse {A : Type} (self : parser A) (input : String.string)
  : outcome A :=
  match self input with
  | Success v EmptyString => Parsed v
  | Success _ (String _ _) => ParseError
  | Failure => ParseError
  end.

End P.

(** ** The template grammar

    The nodes of a template AST, by their [$class] (all in the namespace
    [org.accordproject.ciceromark.template]).  [decl] holds the [name] and
    [type] that the output constructors read off a node; the [value] of a
    Variable is the list of literals of an Enum. *)
Record decl : Type := { name : string; type : string }.

Record conditional : Type :=
  { cond_name : string; whenTrue : string; whenFalse : string }.

Inductive template : Type :=
| TextChunk (value : string)
| Variable_ (variable : decl) (value : list string)   (* [Variable] *)
| ConditionalBlock (cond : conditional)
| UnorderedListBlock (nodes : list template)
| ClauseBlock (clause : decl) (nodes : list template)
| WithBlock (nodes : list template)
| ContractBlock (contract : decl) (nodes : list template)
| OtherNode (class : string).     (* any other [$class] *)

(** ** coreparsers.js *)
Section CoreParsers.
Context {host : Host}.

Definition mkVariable (variable : decl) (value : jsval) : jsval :=
  VObj [("name", VStr (name variable));
        ("type", VStr (type variable));
        ("value", value)].

(** [result[k] = v] on the record that [mkCompoundVariable] makes with
    [{}].  Every name but [__proto__] is written as an own property.
    [__proto__] is the accessor that the record inherits from
    [Object.prototype]: the assignment runs its setter, which makes [v]
    the prototype of the record when [v] is an object and does nothing
    otherwise, and no property is added.  An object of the embedding
    lists its own properties, so the record is left as it is.  (Were the
    new prototype to hold an own property of that name, a later
    assignment to the name would add one; the statement on this name
    leaves such values out.) *)
Definition assign (k : string) (v : jsval) (result : list (string * jsval))
  : list (string * jsval) :=
  if String.eqb k "__proto__" then result else fields_set k v result.

(** The loop [result[field.name] = field.value] over the components. *)
Definition mkCompoundVariable (variable : decl) (value : list jsval) : jsval :=
  VObj (fold_left
          (fun result field =>
             assign (ToString (get "name" field)) (get "value" field) result)
          value
          [("$class", VStr (type variable))]).

Definition mkCond (cond : conditional) (value : string) : jsval :=
  VObj [("name", VStr (cond_name cond));
        ("type", VStr "Boolean");
        ("value", VBool (if String.eqb value (whenTrue cond) then true else false))].

Definition mkClause (clause : decl) (value : list jsval) : jsval :=
  mkCompoundVariable clause value.

Definition mkWrappedClause (clause : decl) (value : list jsval) : jsval :=
  VObj [("name", VStr (name clause));
        ("type", VStr (type clause));
        ("value", mkClause clause value)].

Definition mkContract (contract : decl) (value : list jsval) : jsval :=
  mkClause contract value.

Definition textParser (text : string) : parser string := P.string text.

Definition stringLiteralParser : parser string := P.regexp re_string_literal.

Definition choiceParser {A : Type} (parsers : list (parser A)) : parser A :=
  P.alt parsers.

Definition choiceStringsParser (values : list string) : parser string :=
  choiceParser (map (fun x => P.string x) values).

(** The mapper drops every component whose [typeof] is ['string']. *)
Definition seqParser (parsers : list (parser jsval)) : parser (list jsval) :=
  P.seqMap parsers (fun args => filter (fun x => negb (is_string x)) args).

Definition doubleParser (variable : decl) : parser jsval :=
  P.map (fun x => mkVariable variable (VNum x)) (P.regexp re_double).

Definition integerParser (variable : decl) : parser jsval :=
  P.map (fun x => mkVariable variable (VNum x)) (P.regexp re_integer).

Definition stringParser (variable : decl) : parser jsval :=
  P.map (fun x =>
           mkVariable variable
             (VStr (js_substring x 1 (Z.of_nat (String.length x) - 1))))
        stringLiteralParser.

Definition enumParser (variable : decl) (enums : list string) : parser jsval :=
  P.map (fun x => mkVariable variable (VStr x)) (choiceStringsParser enums).

Definition condParser (cond : conditional) : parser jsval :=
  P.map (fun x => mkCond cond x)
        (P.alt [P.string (whenTrue cond); P.string (whenFalse cond)]).

Definition clauseParser (clause : decl) (content : parser (list jsval))
  : parser jsval :=
  P.map (fun x => mkClause clause x) content.

Definition contractParser (contract : decl) (content : parser (list jsval))
  : parser jsval :=
  P.map (fun x => mkContract contract x) content.

Definition clauseBefore : parser (list string) :=
  P.seq [textParser (NL ++ "``` <clause src="); stringLiteralParser;
         textParser " clauseid="; stringLiteralParser;
         textParser (">" ++ NL)].

Definition clauseAfter : parser string := textParser (NL ++ "```" ++ NL).

Definition wrappedClauseParser (clause : decl) (content : parser (list jsval))
  : parser jsval :=
  P.map (fun x => mkWrappedClause clause x)
        (P.wrap content clauseBefore clauseAfter).

End CoreParsers.

(** ** FromTemplate.js *)

(** The one field of [params] that the compiler reads and writes. *)
Record Params : Type := { contract : bool }.

Inductive compile_error : Type :=
| UnknownVariableType (type : string)     (* ['Unknown variable type ' + ast.type] *)
| UnknownTemplateClass (class : string)   (* ['Unknown template ast $class ' + ...] *)
| NotAFunction (callee : string).         (* TypeError: a call of [undefined] *)

(** [dateTimeParser] comes from the module [./dateTimeParser], which is not
    part of the sources at hand. *)
Class DateTime : Type := { dateTimeParser : decl -> parser jsval }.

Section FromTemplate.
Context {host : Host} {dt : DateTime}.

(** [parsingTable[ast.type]], on the table's own keys.  The names that the
    table inherits from [Object.prototype] ([toString], [constructor] and
    the like) are not in it: the statements about unknown types leave
    them out ([plain_types] below). *)
Definition parsingTable (type : string) : option (decl -> parser jsval) :=
  if String.eqb type "Integer" then Some integerParser
  else if String.eqb type "Double" then Some doubleParser
  else if String.eqb type "String" then Some stringParser
  else if String.eqb type "DateTime" then Some dateTimeParser
  else None.

(** [parserOfTemplate(ast, params)].  [params] is one object shared by the
    whole compilation: the function returns it as the call leaves it, next
    to the parser or the exception.  The string a text parser yields is a
    [VStr] among the values of the other parsers.  [listParser] and
    [withParser] are imported from [coreparsers.js], which does not define
    them: calling them, once the children are compiled, is a TypeError. *)
Fixpoint parserOfTemplate (ast : template) (params : Params)
  : (compile_error + parser jsval) * Params :=
  let map_nodes :=
    fix map_nodes (nodes : list template) (params : Params)
      : (compile_error + list (parser jsval)) * Params :=
      match nodes with
      | [] => (inr [], params)
      | x :: rest =>
          match parserOfTemplate x params with
          | (inl e, params1) => (inl e, params1)
          | (inr p, params1) =>
              match map_nodes rest params1 with
              | (inl e, params2) => (inl e, params2)
              | (inr ps, params2) => (inr (p :: ps), params2)
              end
          end
      end in
  match ast with
  | TextChunk value => (inr (P.map VStr (textParser value)), params)
  | Variable_ variable value =>
      if String.eqb (type variable) "Enum"
      then (inr (enumParser variable value), params)
      else match parsingTable (type variable) with
           | Some parserFun => (inr (parserFun variable), params)
           | None => (inl (UnknownVariableType (type variable)), params)
           end
  | ConditionalBlock cond => (inr (condParser cond), params)
  | UnorderedListBlock nodes =>
      match map_nodes nodes params with
      | (inl e, params1) => (inl e, params1)
      | (inr _, params1) => (inl (NotAFunction "listParser"), params1)
      end
  | ClauseBlock clause nodes =>
      match map_nodes nodes params with
      | (inl e, params1) => (inl e, params1)
      | (inr ps, params1) =>
          let childrenParser := seqParser ps in
          if contract params1
          then (inr (wrappedClauseParser clause childrenParser), params1)
          else (inr (clauseParser clause childrenParser), params1)
      end
  | WithBlock nodes =>
      match map_nodes nodes params with
      | (inl e, params1) => (inl e, params1)
      | (inr _, params1) => (inl (NotAFunction "withParser"), params1)
      end
  | ContractBlock ast_decl nodes =>
      match map_nodes nodes {| contract := true |} with
      | (inl e, params1) => (inl e, params1)
      | (inr ps, params1) =>
          (inr (contractParser ast_decl (seqParser ps)), params1)
      end
  | OtherNode class => (inl (UnknownTemplateClass class), params)
  end.

(** [ast.nodes.map(function (x) { return parserOfTemplate(x,params); })] *)
Fixpoint map_nodes (nodes : list template) (params : Params)
  : (compile_error + list (parser jsval)) * Params :=
  match nodes with
  | [] => (inr [], params)
  | x :: rest =>
      match parserOfTemplate x params with
      | (inl e, params1) => (inl e, params1)
      | (inr p, params1) =>
          match map_nodes rest params1 with
          | (inl e, params2) => (inl e, params2)
          | (inr ps, params2) => (inr (p :: ps), params2)
          end
      end
  end.

End FromTemplate.

(** ** ToPdfMakeVisitor.js *)
Module ToPdfMakeVisitor.

(** A CiceroMark node: its type name, the properties the visitor reads
    (absent ones are [undefined]) and its children ([nodes] absent and
    [nodes] empty are not told apart by any of the reads below). *)
Record attrs : Type :=
  { text : option string;
    destination : option string;
    level : option string;
    type : option string;
    elementType : option string;
    identifiedBy : option string;
    value : option string }.

Inductive node : Type :=
| Node (getType : string) (props : attrs) (nodes : list node).

Definition getType (thing : node) : string :=
  match thing with Node t _ _ => t end.
Definition props (thing : node) : attrs :=
  match thing with Node _ a _ => a end.
Definition nodes (thing : node) : list node :=
  match thing with Node _ _ ns => ns end.

Definition js (o : option string) : jsval :=
  match o with Some s => VStr s | None => VUndef end.

(** [x === s] for a string literal [s]. *)
Definition is_str (s : string) (x : jsval) : bool :=
  match x with VStr y => String.eqb y s | _ => false end.

(** The visitor's [parameters] object. *)
Record Parameters : Type :=
  { strong : bool; emph : bool; code : bool; result : jsval }.

Definition set_emph (p : Parameters) : Parameters :=
  {| strong := strong p; emph := true; code := code p; result := result p |}.
Definition set_strong (p : Parameters) : Parameters :=
  {| strong := true; emph := emph p; code := code p; result := result p |}.
Definition set_result (p : Parameters) (r : jsval) : Parameters :=
  {| strong := strong p; emph := emph p; code := code p; result := r |}.

Inductive error : Type :=
| UnhandledType (t : string)      (* [new Error(`Unhandled type ${...}`)] *)
| TypeError.                      (* a property read on [undefined] *)

Definition unquoteString (value : string) : string :=
  js_substring value 1 (Z.of_nat (String.length value) - 1).

Definition applyMarks (leafNode : list (string * jsval)) (parameters : Parameters)
  : list (string * jsval) :=
  let leafNode :=
    if emph parameters
    then fields_set "italics" (VBool true) (fields_set "style" (VStr "Emph") leafNode)
    else leafNode in
  let leafNode :=
    if strong parameters
    then fields_set "bold" (VBool true) (fields_set "style" (VStr "Strong") leafNode)
    else leafNode in
  if code parameters
  then fields_set "style" (VStr "Code") leafNode
  else leafNode.

Fixpoint getText (thing : node) : jsval :=
  match thing with
  | Node t a ns =>
      if String.eqb t "Text" then js (text a)
      else match ns with
           | child :: _ => getText child
           | [] => VStr EmptyString
           end
  end.

Definition handleFormattedText (thing : node) (parameters : Parameters) : jsval :=
  VObj (applyMarks [("text", getText thing)] parameters).

Definition getHeadingType (thing : node) : string :=
  match level (props thing) with
  | Some l =>
      if String.eqb l "1" then "heading_one"
      else if String.eqb l "2" then "heading_two"
      else if String.eqb l "3" then "heading_three"
      else if String.eqb l "4" then "heading_four"
      else if String.eqb l "5" then "heading_five"
      else if String.eqb l "6" then "heading_six"
      else "heading_one"
  | None => "heading_one"
  end.

(** The [case] labels of [visit], grouped as the [switch] groups them. *)
Inductive rule : Type :=
| CaseEmph | CaseStrong | CaseBlock | CaseLink | CaseImage | CaseParagraph
| CaseVariable | CaseConditional | CaseRaw | CaseText | CaseHeading
| CaseThematicBreak | CaseLinebreak | CaseSoftbreak | CaseList | CaseDocument
| CaseDefault.

Definition one_of (labels : list string) (t : string) : bool :=
  existsb (String.eqb t) labels.

Definition switch (t : string) : rule :=
  if one_of ["Emph"] t then CaseEmph
  else if one_of ["Strong"] t then CaseStrong
  else if one_of ["BlockQuote"; "Item"; "Clause"] t then CaseBlock
  else if one_of ["Link"] t then CaseLink
  else if one_of ["Image"] t then CaseImage
  else if one_of ["Paragraph"] t then CaseParagraph
  else if one_of ["EnumVariable"; "FormattedVariable"; "Formula"; "Variable"] t
  then CaseVariable
  else if one_of ["Conditional"] t then CaseConditional
  else if one_of ["HtmlInline"; "HtmlBlock"; "CodeBlock"; "Code"] t then CaseRaw
  else if one_of ["Text"] t then CaseText
  else if one_of ["Heading"] t then CaseHeading
  else if one_of ["ThematicBreak"] t then CaseThematicBreak
  else if one_of ["Linebreak"] t then CaseLinebreak
  else if one_of ["Softbreak"] t then CaseSoftbreak
  else if one_of ["ListBlock"; "List"] t then CaseList
  else if one_of ["Document"] t then CaseDocument
  else CaseDefault.

(** [Array.isArray(r) ? push.apply(result, r) : result.push(r)] *)
Definition pushed (r : jsval) : list jsval :=
  match r with VArr xs => xs | _ => [r] end.

(** The copy that [processChildren] hands to each child. *)
Definition newParameters (parameters : Parameters) : Parameters :=
  {| strong := strong parameters; emph := emph parameters;
     code := code parameters; result := VUndef |}.

Section Visit.
Context {host : Host}.

(** [visit(thing, parameters)] returns the object [parameters] as the call
    leaves it (its flags possibly set, its [result] assigned), or the
    exception thrown.  [node.accept(this, p)] is [this.visit(node, p)]. *)
Fixpoint visit (thing : node) (parameters : Parameters)
  : error + Parameters :=
  match thing with
  | Node t a ns =>
      let processChildNodes (parameters : Parameters) :=
        (fix each (nodes : list node) : error + list jsval :=
           match nodes with
           | [] => inr []
           | node :: rest =>
               match visit node (newParameters parameters) with
               | inl e => inl e
               | inr newParameters' =>
                   match each rest with
                   | inl e => inl e
                   | inr results => inr (pushed (result newParameters') ++ results)%list
                   end
               end
           end) ns in
      let result := [("style", VStr t)] in
      match switch t with
      | CaseEmph =>
          let parameters := set_emph parameters in
          match processChildNodes parameters with
          | inl e => inl e
          | inr children =>
              inr (set_result parameters
                     (VObj (fields_set "italics" (VBool true)
                              (fields_set "text" (VArr children) result))))
          end
      | CaseStrong =>
          let parameters := set_strong parameters in
          match processChildNodes parameters with
          | inl e => inl e
          | inr children =>
              inr (set_result parameters
                     (VObj (fields_set "bold" (VBool true)
                              (fields_set "text" (VArr children) result))))
          end
      | CaseBlock =>
          match processChildNodes parameters with
          | inl e => inl e
          | inr children =>
              inr (set_result parameters
                     (VObj (fields_set "text" (VArr children) result)))
          end
      | CaseLink =>
          match ns with
          | [] => inl TypeError
          | first :: _ =>
              inr (set_result parameters
                     (VObj (fields_set "link" (js (destination a))
                              (fields_set "text" (js (text (props first))) result))))
          end
      | CaseImage =>
          inr (set_result parameters
                 (VObj (fields_set "image" (js (destination a)) result)))
      | CaseParagraph =>
          match processChildNodes parameters with
          | inl e => inl e
          | inr child =>
              if match child with
                 | c0 :: _ => truthy c0 && is_str "Image" (get "style" c0)
                 | [] => false
                 end
              then inr (set_result parameters
                          (VObj (fields_set "stack" (VArr child) result)))
              else inr (set_result parameters
                          (VObj (fields_set "margin" (VArr [VNum "0"; VNum "5"])
                                   (fields_set "text" (VArr child) result))))
          end
      | CaseVariable =>
          if is_str "String" (js (elementType a)) || truthy (js (identifiedBy a))
          then match value a with
               | Some v =>
                   inr (set_result parameters
                          (VObj (fields_set "text" (VStr (unquoteString v)) result)))
               | None => inl TypeError
               end
          else inr (set_result parameters
                      (VObj (fields_set "text" (js (value a)) result)))
      | CaseConditional =>
          match ns with
          | [] => inl TypeError
          | first :: _ =>
              inr (set_result parameters
                     (VObj (fields_set "text" (js (text (props first))) result)))
          end
      | CaseRaw =>
          inr (set_result parameters
                 (VObj (fields_set "text" (js (text a)) result)))
      | CaseText =>
          inr (set_result parameters (handleFormattedText thing parameters))
      | CaseHeading =>
          match processChildNodes parameters with
          | inl e => inl e
          | inr child =>
              match child with
              | [] => inl TypeError
              | c0 :: _ =>
                  inr (set_result parameters
                         (VObj (fields_set "tocItem" (VBool true)
                                  (fields_set "text"
                                     (VStr (NL ++ ToString (get "text" c0) ++ NL))
                                     (fields_set "style"
                                        (VStr (getHeadingType thing)) result)))))
              end
          end
      | CaseThematicBreak =>
          inr (set_result parameters
                 (VObj (fields_set "pageBreak" (VStr "after")
                          (fields_set "text" (VStr EmptyString) result))))
      | CaseLinebreak =>
          inr (set_result parameters (VObj (fields_set "text" (VStr NL) result)))
      | CaseSoftbreak =>
          inr (set_result parameters (VObj (fields_set "text" (VStr " ") result)))
      | CaseList =>
          match processChildNodes parameters with
          | inl e => inl e
          | inr children =>
              inr (set_result parameters
                     (VObj (fields_set
                              (if is_str "ordered" (js (type a)) then "ol" else "ul")
                              (VArr children) result)))
          end
      | CaseDocument =>
          match processChildNodes parameters with
          | inl e => inl e
          | inr children =>
              inr (set_result parameters
                     (VObj (fields_set "content" (VArr children) result)))
          end
      | CaseDefault => inl (UnhandledType t)
      end
  end.

(** [processChildren(thing, 'nodes', parameters)], on the children. *)
Fixpoint processChildren (nodes : list node) (parameters : Parameters)
  : error + list jsval :=
  match nodes with
  | [] => inr []
  | node :: rest =>
      match visit node (newParameters parameters) with
      | inl e => inl e
      | inr newParameters' =>
          match processChildren rest parameters with
          | inl e => inl e
          | inr results => inr (pushed (result newParameters') ++ results)%list
          end
      end
  end.

Definition processChildNodes (thing : node) (parameters : Parameters)
  : error + list jsval :=
  processChildren (nodes thing) parameters.

End Visit.

End ToPdfMakeVisitor.

(** * Properties *)

(** A host for running examples: it prints a number as its lexeme, which
    is what [Number::toString] gives on a canonical decimal integer. *)
Definition example_host : Host := {| numberToString := fun lexeme => lexeme |}.

(** A [dateTimeParser] for running examples that involve no DateTime. *)
Definition example_dateTime : DateTime :=
  {| dateTimeParser := fun _ => P.fail |}.

(** ** Strings *)

Lemma append_nil_r (s : string) : s ++ EmptyString = s.
Proof. induction s as [|a s IH]; simpl; [reflexivity | now rewrite IH]. Qed.

Lemma append_assoc (a b c : string) : (a ++ b) ++ c = a ++ (b ++ c).
Proof. induction a as [|x a IH]; simpl; [reflexivity | now rewrite IH]. Qed.

Lemma length_append (a b : string) :
  String.length (a ++ b) = String.length a + String.length b.
Proof. induction a as [|x a IH]; simpl; [reflexivity | now rewrite IH]. Qed.

Lemma strip_prefix_app (p rest : string) : strip_prefix p (p ++ rest) = Some rest.
Proof.
  induction p as [|a p IH]; simpl; [reflexivity|].
  now rewrite Ascii.eqb_refl.
Qed.

Lemma strip_prefix_Some (p s rest : string) :
  strip_prefix p s = Some rest -> s = p ++ rest.
Proof.
  revert s; induction p as [|a p IH]; intros s; simpl.
  - now intros [= ->].
  - destruct s as [|b s]; [discriminate|].
    destruct (Ascii.eqb a b) eqn:E; [|discriminate].
    apply Ascii.eqb_eq in E; subst b.
    intros H; apply IH in H; now subst.
Qed.

Lemma strip_prefix_iff (p s rest : string) :
  strip_prefix p s = Some rest <-> s = p ++ rest.
Proof.
  split; [apply strip_prefix_Some | intros ->; apply strip_prefix_app].
Qed.

Lemma strip_prefix_prefix (p s : string) :
  String.prefix p s = match strip_prefix p s with Some _ => true | None => false end.
Proof.
  revert s; induction p as [|a p IH]; intros s.
  - destruct s; reflexivity.
  - destruct s as [|b s]; [reflexivity|].
    simpl. destruct (ascii_dec a b) as [->|N].
    + now rewrite Ascii.eqb_refl.
    + apply Ascii.eqb_neq in N; now rewrite N.
Qed.

(** The text between the first and the last character. *)
Fixpoint drop_last (s : string) : string :=
  match s with
  | EmptyString => EmptyString
  | String _ EmptyString => EmptyString
  | String c s' => String c (drop_last s')
  end.

(** What [substring(1, length - 1)] comes to: the first and the last
    character are removed, whatever they are; a text of fewer than two
    characters is left as it is (the two indices are swapped). *)
Definition strip_ends (s : string) : string :=
  match s with
  | EmptyString => EmptyString
  | String c EmptyString => String c EmptyString
  | String _ s' => drop_last s'
  end.

Lemma substring_drop_last (s : string) :
  String.substring 0 (String.length s - 1) s = drop_last s.
Proof.
  induction s as [|a s IH]; [reflexivity|].
  simpl String.length. replace (S (String.length s) - 1) with (String.length s) by lia.
  destruct s as [|b s]; [reflexivity|].
  change (drop_last (String a (String b s)))
    with (String a (drop_last (String b s))).
  rewrite <- IH.
  change (String.length (String b s)) with (S (String.length s)).
  replace (S (String.length s) - 1) with (String.length s) by lia.
  reflexivity.
Qed.

Lemma js_substring_strip_ends (s : string) :
  js_substring s 1 (Z.of_nat (String.length s) - 1) = strip_ends s.
Proof.
  destruct s as [|a [|b s]]; [reflexivity | reflexivity |].
  unfold js_substring, clamp, strip_ends.
  set (n := String.length s).
  change (String.length (String a (String b s))) with (S (S n)).
  replace (Z.min (Z.max 1 0) (Z.of_nat (S (S n)))) with 1%Z by lia.
  replace (Z.min (Z.max (Z.of_nat (S (S n)) - 1) 0) (Z.of_nat (S (S n))))
    with (Z.of_nat (S n)) by lia.
  replace (Z.min 1 (Z.of_nat (S n))) with 1%Z by lia.
  replace (Z.max 1 (Z.of_nat (S n))) with (Z.of_nat (S n)) by lia.
  replace (Z.to_nat (Z.of_nat (S n) - 1)) with n by lia.
  change (Z.to_nat 1) with 1.
  cbn [String.substring].
  rewrite <- substring_drop_last. subst n. simpl.
  now rewrite Nat.sub_0_r.
Qed.

Lemma drop_last_snoc (body : string) (c : ascii) :
  drop_last (body ++ String c EmptyString) = body.
Proof.
  induction body as [|a body IH]; [reflexivity|].
  simpl. rewrite IH. destruct body; reflexivity.
Qed.

Lemma strip_ends_wrapped (q q' : ascii) (body : string) :
  strip_ends (String q (body ++ String q' EmptyString)) = body.
Proof.
  unfold strip_ends. destruct body as [|a body]; [reflexivity|].
  change (String a body ++ String q' EmptyString)
    with (String a (body ++ String q' EmptyString)).
  apply (drop_last_snoc (String a body)).
Qed.

(** ** The PdfMake visitor *)
Section VisitorProperties.
Import ToPdfMakeVisitor.
Context {host : Host}.

(** Induction on a node with the hypothesis on all children. *)
Lemma node_rect_children (Q : node -> Prop) :
  (forall t a ns, Forall Q ns -> Q (Node t a ns)) -> forall thing, Q thing.
Proof.
  intros step. fix IH 1. intros [t a ns]. apply step.
  induction ns as [|child ns IHns]; constructor; [apply IH | exact IHns].
Qed.

(** The loop inside [visit] is [processChildren]. *)
Lemma each_processChildren (ns : list node) (parameters : Parameters) :
  (fix each (nodes : list node) : error + list jsval :=
     match nodes with
     | [] => inr []
     | node :: rest =>
         match visit node (newParameters parameters) with
         | inl e => inl e
         | inr newParameters' =>
             match each rest with
             | inl e => inl e
             | inr results => inr (pushed (result newParameters') ++ results)%list
             end
         end
     end) ns = processChildren ns parameters.
Proof.
  induction ns as [|child ns IH]; [reflexivity|].
  cbn [processChildren]. rewrite <- IH. reflexivity.
Qed.

Lemma processChildren_app (l1 l2 : list node) (parameters : Parameters) :
  processChildren (l1 ++ l2) parameters =
  match processChildren l1 parameters with
  | inl e => inl e
  | inr r1 =>
      match processChildren l2 parameters with
      | inl e => inl e
      | inr r2 => inr (r1 ++ r2)%list
      end
  end.
Proof.
  induction l1 as [|child l1 IH]; cbn [processChildren app].
  - destruct (processChildren l2 parameters); reflexivity.
  - destruct (visit child (newParameters parameters)) as [e|q]; [reflexivity|].
    rewrite IH.
    destruct (processChildren l1 parameters) as [e|r1]; [reflexivity|].
    destruct (processChildren l2 parameters) as [e|r2]; [reflexivity|].
    now rewrite app_assoc.
Qed.

(** *** Heading styles *)

(** The mapping as the interface states it: a table and a default. *)
Definition heading_styles : list (string * string) :=
  [("1", "heading_one"); ("2", "heading_two"); ("3", "heading_three");
   ("4", "heading_four"); ("5", "heading_five"); ("6", "heading_six")].

Definition style_of_level (l : option string) : string :=
  match l with
  | Some l =>
      match find (fun entry => String.eqb (fst entry) l) heading_styles with
      | Some entry => snd entry
      | None => "heading_one"
      end
  | None => "heading_one"
  end.

Example style_of_level_examples :
  map style_of_level [Some "1"; Some "2"; Some "3"; Some "4"; Some "5";
                      Some "6"; Some "9"; Some "0"; Some "h1"; None]
  = ["heading_one"; "heading_two"; "heading_three"; "heading_four";
     "heading_five"; "heading_six"; "heading_one"; "heading_one";
     "heading_one"; "heading_one"].
Proof. reflexivity. Qed.

(** C9.  The style name of a Heading is read off its level by the table
    1 to heading_one, 2 to heading_two, 3 to heading_three, 4 to
    heading_four, 5 to heading_five, 6 to heading_six; every other level
    (9, say, or none at all) gives heading_one. *)
Theorem getHeadingType_table (thing : node) :
  getHeadingType thing = style_of_level (level (props thing)).
Proof.
  unfold getHeadingType, style_of_level.
  destruct (level (props thing)) as [l|]; [|reflexivity].
  cbn [find heading_styles fst snd].
  rewrite !(String.eqb_sym _ l).
  repeat (match goal with
          | |- context [String.eqb l ?k] => destruct (String.eqb l k)
          end; [reflexivity|]).
  reflexivity.
Qed.

(** *** getText *)

(** The text of a node as the helper is described: the text of a Text
    leaf; below any other node the text of its first child, and the empty
    string when there is no child. *)
Inductive first_text : node -> jsval -> Prop :=
| first_text_leaf (a : attrs) (ns : list node) :
    first_text (Node "Text" a ns) (js (text a))
| first_text_none (t : string) (a : attrs) :
    t <> "Text" -> first_text (Node t a []) (VStr EmptyString)
| first_text_child (t : string) (a : attrs) (child : node) (rest : list node)
    (v : jsval) :
    t <> "Text" -> first_text child v -> first_text (Node t a (child :: rest)) v.

Lemma getText_first_text (thing : node) : first_text thing (getText thing).
Proof.
  induction thing as [t a ns IH] using node_rect_children.
  cbn [getText]. destruct (String.eqb t "Text") eqn:E.
  - apply String.eqb_eq in E; subst t. constructor.
  - apply String.eqb_neq in E.
    destruct ns as [|child rest]; [now constructor|].
    constructor; [exact E|]. now inversion IH.
Qed.

Lemma first_text_getText (thing : node) (v : jsval) :
  first_text thing v -> v = getText thing.
Proof.
  induction 1 as [a ns | t a N | t a child rest v N _ IH]; cbn [getText].
  - reflexivity.
  - apply String.eqb_neq in N; now rewrite N.
  - apply String.eqb_neq in N; now rewrite N.
Qed.

(** C8.  [getText] gives the text of a Text leaf and otherwise goes down
    into the first child only, with the empty string when a node that is
    not a Text leaf has no child; the other children never contribute. *)
Theorem getText_first_child_only :
  (forall thing v, first_text thing v <-> v = getText thing)
  /\ (forall t a child rest rest',
         getText (Node t a (child :: rest)) = getText (Node t a (child :: rest'))).
Proof.
  split.
  - intros thing v; split; [apply first_text_getText|].
    intros ->; apply getText_first_text.
  - intros t a child rest rest'. reflexivity.
Qed.

(** *** The Variable family *)

Definition variable_family : list string :=
  ["EnumVariable"; "FormattedVariable"; "Formula"; "Variable"].

Lemma unquoteString_strip_ends (v : string) : unquoteString v = strip_ends v.
Proof. apply js_substring_strip_ends. Qed.

Lemma one_of_In (labels : list string) (t : string) :
  one_of labels t = true -> In t labels.
Proof.
  unfold one_of. intros H. apply existsb_exists in H as (k & Hin & E).
  apply String.eqb_eq in E. now subst.
Qed.

(** C3, as the code has it.  A node of the Variable family is emitted
    with its stored value as text; when its element type is String or it
    is identifiedBy, the text is the stored value without its first and
    its last character, whatever these are, so that a value wrapped in
    quote characters loses them (a value of fewer than two characters is
    left as it is); no test for quote characters is made. *)
Theorem visit_variable_text (t : string) (a : attrs) (ns : list node)
  (parameters : Parameters) :
  one_of variable_family t = true ->
  visit (Node t a ns) parameters =
    (if is_str "String" (js (elementType a)) || truthy (js (identifiedBy a))
     then match value a with
          | Some v =>
              inr (set_result parameters
                     (VObj [("style", VStr t); ("text", VStr (strip_ends v))]))
          | None => inl TypeError
          end
     else inr (set_result parameters
                 (VObj [("style", VStr t); ("text", js (value a))])))
  /\ (forall (q q' : ascii) (body : string),
         strip_ends (String q (body ++ String q' EmptyString)) = body).
Proof.
  intros H. split; [|intros; apply strip_ends_wrapped].
  apply one_of_In in H.
  assert (Hs : switch t = CaseVariable)
    by (cbn in H; intuition (subst; reflexivity)).
  cbn [visit]. rewrite Hs.
  assert (Hset : forall v, fields_set "text" v [("style", VStr t)]
                           = [("style", VStr t); ("text", v)]) by reflexivity.
  rewrite !Hset.
  destruct (is_str "String" (js (elementType a)) || truthy (js (identifiedBy a)));
    [|reflexivity].
  destruct (value a) as [v|]; [|reflexivity].
  now rewrite unquoteString_strip_ends.
Qed.

(** *** Marks *)

Definition has_field (k : string) (x : jsval) : bool :=
  match x with
  | VObj fs => existsb (fun kv => String.eqb (fst kv) k) fs
  | _ => false
  end.

(** The flag and the attribute that go with Emph and with Strong. *)
Definition flag_of (mark : string) (p : Parameters) : bool :=
  if String.eqb mark "Emph" then emph p else strong p.

Definition attribute_of (mark : string) : string :=
  if String.eqb mark "Emph" then "italics" else "bold".

Lemma visit_Text (a : attrs) (ns : list node) (parameters : Parameters) :
  visit (Node "Text" a ns) parameters =
  inr (set_result parameters (handleFormattedText (Node "Text" a ns) parameters)).
Proof. reflexivity. Qed.

Lemma leaf_without_mark (mark : string) (a : attrs) (ns : list node)
  (p : Parameters) :
  mark = "Emph" \/ mark = "Strong" ->
  flag_of mark p = false ->
  has_field (attribute_of mark)
    (handleFormattedText (Node "Text" a ns) (newParameters p)) = false.
Proof.
  intros [-> | ->] F; cbn in F; unfold handleFormattedText, applyMarks;
    cbn [newParameters emph strong code]; rewrite F;
    destruct p as [s e c r]; cbn [strong emph code] in *;
    destruct s, e, c; try discriminate; reflexivity.
Qed.

Lemma visit_mark_sets_flag (mark : string) (a : attrs) (ns : list node)
  (p q : Parameters) :
  mark = "Emph" \/ mark = "Strong" ->
  visit (Node mark a ns) p = inr q -> flag_of mark q = true.
Proof.
  intros [-> | ->]; cbn [visit]; rewrite !each_processChildren;
    change (switch "Emph") with CaseEmph; change (switch "Strong") with CaseStrong;
    cbv iota.
  - destruct (processChildren ns (set_emph p)); [discriminate|].
    now intros [= <-].
  - destruct (processChildren ns (set_strong p)); [discriminate|].
    now intros [= <-].
Qed.

(** C6.  Under one parent whose own flag is off, an Emph (Strong) child
    sets the flag in the context it is visited with, and a Text leaf that
    comes later among the same children is still produced from the
    parent's flags: it has no italics (bold) attribute. *)
Theorem mark_does_not_leak_to_siblings
  (mark : string) (am a : attrs) (nsm ns l1 l2 l3 : list node)
  (p q : Parameters) (r1 r2 r3 : list jsval) :
  mark = "Emph" \/ mark = "Strong" ->
  flag_of mark p = false ->
  processChildren l1 p = inr r1 ->
  visit (Node mark am nsm) (newParameters p) = inr q ->
  processChildren l2 p = inr r2 ->
  processChildren l3 p = inr r3 ->
  let leaf := handleFormattedText (Node "Text" a ns) (newParameters p) in
  flag_of mark q = true
  /\ processChildren (l1 ++ Node mark am nsm :: l2 ++ Node "Text" a ns :: l3) p
     = inr (r1 ++ pushed (result q) ++ r2 ++ leaf :: r3)%list
  /\ has_field (attribute_of mark) leaf = false.
Proof.
  intros Hm Hf H1 Hq H2 H3 leaf. split; [|split].
  - eapply visit_mark_sets_flag; eauto.
  - rewrite processChildren_app, H1.
    change (Node mark am nsm :: l2 ++ Node "Text" a ns :: l3)
      with ([Node mark am nsm] ++ l2 ++ [Node "Text" a ns] ++ l3)%list.
    rewrite !processChildren_app, H2, H3.
    cbn [processChildren]. rewrite Hq, visit_Text.
    cbn [result set_result pushed app]. unfold leaf, handleFormattedText.
    cbn [pushed]. now rewrite app_nil_r.
  - now apply leaf_without_mark.
Qed.

(** *** Tags without a rule *)

(** The rules that visit the children of their node. *)
Definition recurses (t : string) : bool :=
  match switch t with
  | CaseEmph | CaseStrong | CaseBlock | CaseParagraph | CaseHeading
  | CaseList | CaseDocument => true
  | _ => false
  end.

(** [visited_in root n]: the traversal of [root] gets to [n], every node
    on the way down having a rule that visits its children. *)
Inductive visited_in : node -> node -> Prop :=
| visited_here (n : node) : visited_in n n
| visited_below (t : string) (a : attrs) (ns : list node) (child n : node) :
    recurses t = true -> In child ns -> visited_in child n ->
    visited_in (Node t a ns) n.

(** The two exceptions a traversal can end with. *)
Definition raised (e : error) : Prop :=
  e = TypeError \/ exists t, switch t = CaseDefault /\ e = UnhandledType t.

Lemma processChildren_error (ns : list node) (child : node) (p : Parameters) :
  In child ns ->
  (forall q, exists e, visit child q = inl e) ->
  exists e, processChildren ns p = inl e.
Proof.
  intros Hin Hc. induction ns as [|x ns IH]; [contradiction|].
  cbn [processChildren].
  destruct (visit x (newParameters p)) as [e|q] eqn:E; [eauto|].
  destruct Hin as [-> | Hin].
  - destruct (Hc (newParameters p)) as [e He]; congruence.
  - destruct (IH Hin) as [e ->]; eauto.
Qed.

Lemma visit_recursing_error (t : string) (a : attrs) (ns : list node)
  (p : Parameters) :
  recurses t = true ->
  (forall p', exists e, processChildren ns p' = inl e) ->
  exists e, visit (Node t a ns) p = inl e.
Proof.
  unfold recurses. intros R H. cbn [visit]. rewrite !each_processChildren.
  destruct (switch t); try discriminate;
    match goal with
    | |- context [processChildren ns ?p'] =>
        destruct (H p') as [e ->]; eauto
    end.
Qed.

Lemma processChildren_raised (ns : list node) (p : Parameters) (e : error) :
  Forall (fun child => forall q e, visit child q = inl e -> raised e) ns ->
  processChildren ns p = inl e -> raised e.
Proof.
  induction 1 as [|x ns Hx _ IH]; cbn [processChildren]; [discriminate|].
  destruct (visit x (newParameters p)) as [e'|q] eqn:E.
  - intros [= <-]. eauto.
  - destruct (processChildren ns p) as [e'|r]; [|discriminate].
    intros [= <-]. auto.
Qed.

Lemma visit_raised (thing : node) :
  forall (p : Parameters) (e : error), visit thing p = inl e -> raised e.
Proof.
  induction thing as [t a ns IH] using node_rect_children.
  intros p e. cbn [visit]. rewrite !each_processChildren.
  destruct (switch t) eqn:S;
    repeat match goal with
      | |- context [processChildren ns ?p'] =>
          let E := fresh "E" in
          destruct (processChildren ns p') as [?e|?r] eqn:E;
          [apply (processChildren_raised _ _ _ IH) in E; now intros [= <-]|]
      | |- context [match ?l with [] => _ | _ :: _ => _ end] => destruct l
      | |- context [if ?b then _ else _] => destruct b
      | |- context [match value a with Some _ => _ | None => _ end] =>
          destruct (value a)
      end;
    try discriminate;
    intros [= <-]; try (now left).
  right; eauto.
Qed.

(** C7, as the code has it.  A node whose tag has no rule raises the
    Unhandled-type error when it is visited, and a traversal that gets to
    such a node (every node above it has a rule that visits its children)
    returns nothing and ends in an exception, an Unhandled-type error or a
    TypeError raised on the way. *)
Theorem unhandled_type_aborts (root n : node) (p p' : Parameters) :
  visited_in root n ->
  switch (getType n) = CaseDefault ->
  visit n p' = inl (UnhandledType (getType n))
  /\ exists e, visit root p = inl e /\ raised e.
Proof.
  intros V U. split.
  - destruct n as [t a ns]. cbn [getType] in U. cbn [visit]. now rewrite U.
  - assert (H : forall q, exists e, visit root q = inl e).
    { clear p. induction V as [[t a ns] | t a ns child n R Hin _ IH]; intros q.
      - cbn [getType] in U. cbn [visit]. rewrite U. eauto.
      - apply visit_recursing_error; [exact R|].
        intros q'. eapply processChildren_error; eauto. }
    destruct (H p) as [e He]. exists e. split; [exact He|].
    eapply visit_raised; eauto.
Qed.

(** A node with a rule that does not visit children never raises the
    Unhandled-type error, whatever is below it. *)
Lemma visit_without_recursion (t : string) (a : attrs) (ns : list node)
  (p : Parameters) :
  recurses t = false -> switch t <> CaseDefault ->
  visit (Node t a ns) p = inl TypeError \/ exists q, visit (Node t a ns) p = inr q.
Proof.
  unfold recurses. intros R D. cbn [visit].
  destruct (switch t); try discriminate; try congruence;
    repeat match goal with
      | |- context [match ?l with [] => _ | _ :: _ => _ end] => destruct l
      | |- context [if ?b then _ else _] => destruct b
      | |- context [match value a with Some _ => _ | None => _ end] =>
          destruct (value a)
      end; eauto.
Qed.

End VisitorProperties.

(** *** The visitor on concrete trees *)
Section VisitorExamples.
Import ToPdfMakeVisitor.

Definition plain : attrs :=
  {| text := None; destination := None; level := None; type := None;
     elementType := None; identifiedBy := None; value := None |}.

Definition text_leaf (s : string) : node :=
  Node "Text"
    {| text := Some s; destination := None; level := None; type := None;
       elementType := None; identifiedBy := None; value := None |} [].

Definition string_variable (v : string) : node :=
  Node "Variable"
    {| text := None; destination := None; level := None; type := None;
       elementType := Some "String"; identifiedBy := None; value := Some v |} [].

Definition start : Parameters :=
  {| strong := false; emph := false; code := false; result := VUndef |}.

(** C3 fails as stated on a String variable whose value is not quoted:
    [abc] is emitted as [b], not unchanged. *)
Lemma unquoted_value_is_not_emitted_unchanged :
  @visit example_host (string_variable "abc") start
  = inr (set_result start (VObj [("style", VStr "Variable"); ("text", VStr "b")])).
Proof. reflexivity. Qed.

Lemma visit_variable_text_witness :
  @visit example_host (string_variable (DQ ++ "Acme" ++ DQ)) start
  = inr (set_result start (VObj [("style", VStr "Variable"); ("text", VStr "Acme")])).
Proof.
  exact (proj1 (@visit_variable_text example_host "Variable" _ [] start eq_refl)).
Defined.

Lemma mark_does_not_leak_witness :
  exists q,
    @visit example_host (Node "Emph" plain [text_leaf "a"]) (newParameters start)
    = inr q
    /\ emph q = true
    /\ @processChildren example_host
         [Node "Emph" plain [text_leaf "a"]; text_leaf "b"] start
       = inr (pushed (result q) ++ [VObj [("text", VStr "b")]])%list
    /\ has_field "italics" (VObj [("text", VStr "b")]) = false.
Proof.
  eexists. split; [reflexivity|].
  exact (@mark_does_not_leak_to_siblings example_host "Emph" plain
           {| text := Some "b"; destination := None; level := None; type := None;
              elementType := None; identifiedBy := None; value := None |}
           [text_leaf "a"] [] [] [] [] start _ [] [] []
           (or_introl eq_refl) eq_refl eq_refl eq_refl eq_refl eq_refl).
Defined.

(** C7 fails as stated on a tree whose unknown tag sits below a Link: the
    child of a Link is read, not visited, and the traversal returns. *)
Lemma unknown_tag_below_link_is_not_raised :
  @visit example_host
    (Node "Document" plain
       [Node "Paragraph" plain [Node "Link" plain [Node "Footnote" plain []]]])
    start
  = inr (set_result start
           (VObj [("style", VStr "Document");
                  ("content",
                   VArr [VObj [("style", VStr "Paragraph");
                               ("text",
                                VArr [VObj [("style", VStr "Link");
                                            ("text", VUndef);
                                            ("link", VUndef)]]);
                               ("margin", VArr [VNum "0"; VNum "5"])]])])).
Proof. reflexivity. Qed.

Lemma unhandled_type_aborts_witness :
  @visit example_host (Node "Footnote" plain []) start
  = inl (UnhandledType "Footnote")
  /\ exists e,
      @visit example_host
        (Node "Document" plain
           [Node "Paragraph" plain [text_leaf "a"; Node "Footnote" plain []]])
        start = inl e
      /\ raised e.
Proof.
  apply (@unhandled_type_aborts example_host
           (Node "Document" plain
              [Node "Paragraph" plain [text_leaf "a"; Node "Footnote" plain []]])
           (Node "Footnote" plain []) start start).
  - apply visited_below with (child :=
      Node "Paragraph" plain [text_leaf "a"; Node "Footnote" plain []]);
      [reflexivity | simpl; auto |].
    apply visited_below with (child := Node "Footnote" plain []);
      [reflexivity | simpl; auto |].
    apply visited_here.
  - reflexivity.
Defined.

End VisitorExamples.

(** ** The Parsimmon primitives *)

Lemma string_spec (str input v rest : string) :
  P.string str input = Success v rest <-> v = str /\ input = str ++ rest.
Proof.
  unfold P.string. destruct (strip_prefix str input) as [r|] eqn:E.
  - apply strip_prefix_Some in E. split.
    + intros [= <- <-]; auto.
    + intros [-> H]. subst input. f_equal.
      clear -H. induction str as [|a str IH]; [exact H|].
      simpl in H. injection H as H. auto.
  - split; [discriminate|]. intros [_ ->].
    now rewrite strip_prefix_app in E.
Qed.

Lemma strip_prefix_all (p s : string) : strip_prefix p s = Some EmptyString <-> s = p.
Proof.
  rewrite strip_prefix_iff. now rewrite append_nil_r.
Qed.

Lemma append_same_length (p r : string) : p ++ r = p -> r = EmptyString.
Proof.
  induction p as [|a p IH]; simpl; [auto|]. intros [= H]; auto.
Qed.

(** ** Conditional blocks *)
Section ConditionalProperties.

(** The record a conditional binds. *)
Definition bound (cond : conditional) (b : bool) : jsval :=
  VObj [("name", VStr (cond_name cond)); ("type", VStr "Boolean");
        ("value", VBool b)].

(** As a component of a sequence: the first literal that starts the input
    is taken, [whenTrue] before [whenFalse], and the rest is left. *)
Lemma condParser_prefix (cond : conditional) (input : string) :
  condParser cond input =
  match strip_prefix (whenTrue cond) input with
  | Some rest => Success (bound cond true) rest
  | None =>
      match strip_prefix (whenFalse cond) input with
      | Some rest => Success (bound cond false) rest
      | None => Failure
      end
  end.
Proof.
  unfold condParser, P.map, P.alt, P.string, mkCond, bound.
  destruct (strip_prefix (whenTrue cond) input) as [r|] eqn:T.
  - now rewrite String.eqb_refl.
  - destruct (strip_prefix (whenFalse cond) input) as [r|] eqn:F; [|reflexivity].
    destruct (String.eqb (whenFalse cond) (whenTrue cond)) eqn:E; [|reflexivity].
    apply String.eqb_eq in E. congruence.
Qed.

(** C2, as the code has it.  Parsing a text with a conditional has three
    outcomes: the text [whenTrue] binds true; the text [whenFalse] binds
    false unless [whenTrue] is a prefix of it, in which case [whenTrue] is
    matched first, the rest is left over and the parse fails; every other
    text is a ParseError. *)
Theorem condParser_outcomes (cond : conditional) (input : string) :
  P.parse (condParser cond) input =
  if String.eqb input (whenTrue cond) then P.Parsed (bound cond true)
  else if String.eqb input (whenFalse cond)
          && negb (String.prefix (whenTrue cond) input)
       then P.Parsed (bound cond false)
       else P.ParseError.
Proof.
  unfold P.parse. rewrite condParser_prefix, strip_prefix_prefix.
  destruct (strip_prefix (whenTrue cond) input) as [r|] eqn:T.
  - apply strip_prefix_Some in T. destruct r as [|c r].
    + rewrite append_nil_r in T. subst input. now rewrite String.eqb_refl.
    + destruct (String.eqb input (whenTrue cond)) eqn:E.
      * apply String.eqb_eq in E. rewrite E in T at 1.
        symmetry in T. apply append_same_length in T. discriminate.
      * now rewrite andb_false_r.
  - destruct (String.eqb input (whenTrue cond)) eqn:E.
    + apply String.eqb_eq in E. apply strip_prefix_all in E. congruence.
    + rewrite andb_true_r.
      destruct (strip_prefix (whenFalse cond) input) as [r|] eqn:F.
      * apply strip_prefix_Some in F. destruct r as [|c r].
        -- rewrite append_nil_r in F. subst input. now rewrite String.eqb_refl.
        -- destruct (String.eqb input (whenFalse cond)) eqn:E'; [|reflexivity].
           apply String.eqb_eq in E'. rewrite E' in F at 1.
           symmetry in F. apply append_same_length in F. discriminate.
      * destruct (String.eqb input (whenFalse cond)) eqn:E'; [|reflexivity].
        apply String.eqb_eq in E'. apply strip_prefix_all in E'. congruence.
Qed.

Definition will_or_will_not : conditional :=
  {| cond_name := "forceMajeure"; whenTrue := "will"; whenFalse := "will not" |}.

Example condParser_will :
  P.parse (condParser will_or_will_not) "will"
  = P.Parsed (bound will_or_will_not true)
  /\ P.parse (condParser will_or_will_not) "maybe" = P.ParseError.
Proof. split; reflexivity. Qed.

(** C2 fails as stated on its own example: on [will not] the first
    alternative matches [will], the rest is left over and nothing is
    bound; as a component the parser binds true there. *)
Lemma condParser_will_not :
  P.parse (condParser will_or_will_not) "will not" = P.ParseError
  /\ condParser will_or_will_not "will not"
     = Success (bound will_or_will_not true) " not".
Proof. split; reflexivity. Qed.

End ConditionalProperties.

(** ** String literals *)

(** A text without a double quote. *)
Fixpoint no_dquote (s : string) : bool :=
  match s with
  | EmptyString => true
  | String c s' => negb (Ascii.eqb c dquote) && no_dquote s'
  end.

(** A double-quoted literal: a double quote, a text without one, a double
    quote. *)
Definition quoted (s : string) : Prop :=
  exists body, no_dquote body = true /\ s = DQ ++ body ++ DQ.

(** The rest after the first double quote. *)
Fixpoint close_quote (s : string) : option string :=
  match s with
  | EmptyString => None
  | String c s' => if Ascii.eqb c dquote then Some s' else close_quote s'
  end.

Lemma in_class_not_dquote (c : ascii) :
  in_class true [(dquote, dquote)] c = negb (Ascii.eqb c dquote).
Proof.
  unfold in_class, in_range. cbn [existsb fst snd]. rewrite orb_false_r.
  rewrite xorb_true_l. f_equal.
  destruct (Ascii.eqb c dquote) eqn:E.
  - apply Ascii.eqb_eq in E. now subst.
  - apply Ascii.eqb_neq in E.
    destruct (Nat.leb (nat_of_ascii dquote) (nat_of_ascii c)
              && Nat.leb (nat_of_ascii c) (nat_of_ascii dquote)) eqn:R;
      [|reflexivity].
    apply andb_true_iff in R as [R1 R2].
    apply Nat.leb_le in R1, R2.
    exfalso. apply E. rewrite <- (ascii_nat_embedding c).
    replace (nat_of_ascii c) with (nat_of_ascii dquote) by lia.
    reflexivity.
Qed.

Lemma scan_to_quote (fuel : nat) (s : string) :
  String.length s <= fuel ->
  iterate (exec (Class true [(dquote, dquote)])) fuel s
    (fun s2 => exec (Chr dquote) s2 Some)
  = close_quote s.
Proof.
  revert s; induction fuel as [|fuel IH]; intros s L.
  - destruct s; [reflexivity | simpl in L; lia].
  - destruct s as [|c s]; [reflexivity|].
    cbn [iterate exec one_char close_quote]. rewrite in_class_not_dquote.
    rewrite (Ascii.eqb_sym dquote c).
    destruct (Ascii.eqb c dquote) eqn:E; cbn [negb]; [reflexivity|].
    replace (Nat.ltb (String.length s) (String.length (String c s))) with true
      by (symmetry; apply Nat.ltb_lt; simpl; lia).
    rewrite IH by (simpl in L; lia).
    destruct (close_quote s); reflexivity.
Qed.

Lemma close_quote_spec (s rest : string) :
  close_quote s = Some rest <->
  exists body, no_dquote body = true /\ s = body ++ DQ ++ rest.
Proof.
  split.
  - revert rest; induction s as [|c s IH]; intros rest; cbn [close_quote];
      [discriminate|].
    destruct (Ascii.eqb c dquote) eqn:E.
    + apply Ascii.eqb_eq in E; subst c. intros [= ->].
      exists EmptyString; split; reflexivity.
    + intros H. destruct (IH _ H) as (body & Hb & ->).
      exists (String c body); split; [|reflexivity].
      cbn [no_dquote]. now rewrite E, Hb.
  - intros (body & Hb & ->). induction body as [|c body IH].
    + reflexivity.
    + cbn [no_dquote] in Hb. apply andb_true_iff in Hb as [Hc Hb].
      apply negb_true_iff in Hc.
      change (close_quote (String c (body ++ DQ ++ rest)) = Some rest).
      cbn [close_quote]. rewrite Hc. auto.
Qed.

Lemma substring_prefix (m rest : string) :
  String.substring 0 (String.length m) (m ++ rest) = m.
Proof.
  induction m as [|c m IH]; cbn.
  - destruct rest; reflexivity.
  - now rewrite IH.
Qed.

Lemma consumed_app (m rest : string) : consumed (m ++ rest) rest = m.
Proof.
  unfold consumed. rewrite length_append.
  replace (String.length m + String.length rest - String.length rest)
    with (String.length m) by lia.
  apply substring_prefix.
Qed.

Lemma append_cancel_r (a b c : string) : a ++ c = b ++ c -> a = b.
Proof.
  revert b; induction a as [|x a IH]; intros [|y b] H.
  - reflexivity.
  - exfalso. apply (f_equal String.length) in H.
    cbn in H. rewrite length_append in H. lia.
  - exfalso. apply (f_equal String.length) in H.
    cbn in H. rewrite length_append in H. lia.
  - cbn in H. injection H as -> H. f_equal. auto.
Qed.

Lemma stringLiteralParser_spec (input m rest : string) :
  stringLiteralParser input = Success m rest <->
  quoted m /\ input = m ++ rest.
Proof.
  unfold stringLiteralParser, P.regexp, re_string_literal.
  cbn [exec]. destruct input as [|c input]; cbn [one_char].
  - split; [discriminate|]. intros [(body & _ & ->) H]. discriminate.
  - rewrite (Ascii.eqb_sym dquote c).
    destruct (Ascii.eqb c dquote) eqn:E.
    + apply Ascii.eqb_eq in E; subst c.
      rewrite scan_to_quote by lia.
      destruct (close_quote input) as [r|] eqn:C.
      * apply close_quote_spec in C as (body & Hb & ->).
        change (String dquote (body ++ DQ ++ r)) with (DQ ++ body ++ DQ ++ r).
        replace (DQ ++ body ++ DQ ++ r) with ((DQ ++ body ++ DQ) ++ r)
          by (now rewrite !append_assoc).
        rewrite consumed_app. split.
        -- intros [= <- <-]. split; [exists body; auto | reflexivity].
        -- intros [(body' & Hb' & ->) H].
           rewrite !append_assoc in H. injection H as H.
           assert (C1 : close_quote (body ++ DQ ++ r) = Some r)
             by (apply close_quote_spec; eauto).
           assert (C2 : close_quote (body' ++ DQ ++ rest) = Some rest)
             by (apply close_quote_spec; eauto).
           change (body ++ DQ ++ r = body' ++ DQ ++ rest) in H.
           rewrite H in C1. rewrite C1 in C2. injection C2 as ->.
           apply append_cancel_r in H. now subst.
      * split; [discriminate|]. intros [(body & Hb & ->) H].
        cbn in H. injection H as H.
        assert (C' : close_quote input = Some rest).
        { apply close_quote_spec. exists body. split; [exact Hb|].
          rewrite H. now rewrite !append_assoc. }
        congruence.
    + split; [discriminate|]. intros [(body & _ & ->) H].
      cbn in H. injection H as H _. subst c.
      now rewrite Ascii.eqb_refl in E.
Qed.

(** ** Double variables *)

Definition amount : decl := {| name := "amount"; type := "Double" |}.

(** The shape of a decimal number: digits, an optional fraction (a point
    and digits), an optional exponent (e, an optional sign, digits). *)
Definition is_digit (c : ascii) : bool := in_class false [("0"%char, "9"%char)] c.

Fixpoint all_digits (s : string) : bool :=
  match s with
  | EmptyString => true
  | String c s' => is_digit c && all_digits s'
  end.

Definition digits (s : string) : Prop := s <> EmptyString /\ all_digits s = true.

Definition fraction (s : string) : Prop :=
  s = EmptyString \/ exists ds, digits ds /\ s = "." ++ ds.

Definition exponent (s : string) : Prop :=
  s = EmptyString
  \/ exists sign ds,
      (sign = EmptyString \/ sign = "+" \/ sign = "-") /\ digits ds
      /\ s = "e" ++ sign ++ ds.

Definition starts_with_digit (s : string) : bool :=
  match s with
  | String c _ => is_digit c
  | EmptyString => false
  end.

Lemma iterate_S (step : string -> (string -> option string) -> option string)
  (fuel : nat) (s : string) (k : string -> option string) :
  iterate step (S fuel) s k
  = match step s (fun s' =>
                    if Nat.ltb (String.length s') (String.length s)
                    then iterate step fuel s' k else None) with
    | Some rest => Some rest
    | None => k s
    end.
Proof. reflexivity. Qed.

Lemma exec_digit (s : string) (k : string -> option string) :
  exec digit s k
  = match s with
    | String c s' => if is_digit c then k s' else None
    | EmptyString => None
    end.
Proof. destruct s; reflexivity. Qed.

Lemma iterate_digits (ds : string) :
  forall fuel rest k x,
    all_digits ds = true -> starts_with_digit rest = false ->
    String.length (ds ++ rest) <= fuel ->
    k rest = Some x ->
    iterate (exec digit) fuel (ds ++ rest) k = Some x.
Proof.
  induction ds as [|c ds IH]; intros fuel rest k x D R L K.
  - cbn [append]. destruct fuel as [|fuel]; [exact K|].
    rewrite iterate_S, exec_digit.
    destruct rest as [|c r]; [exact K|].
    cbn [starts_with_digit] in R. now rewrite R.
  - cbn [all_digits] in D. apply andb_true_iff in D as [Dc D].
    destruct fuel as [|fuel]; [cbn in L; lia|].
    cbn [append]. rewrite iterate_S, exec_digit, Dc.
    replace (Nat.ltb (String.length (ds ++ rest))
               (String.length (String c (ds ++ rest)))) with true
      by (symmetry; apply Nat.ltb_lt; cbn; lia).
    rewrite (IH fuel rest k x); auto. cbn in L. lia.
Qed.

Lemma exec_plus_digit (s : string) (k : string -> option string) :
  exec (Plus digit) s k
  = match s with
    | String c s' =>
        if is_digit c then iterate (exec digit) (String.length s') s' k else None
    | EmptyString => None
    end.
Proof. destruct s; reflexivity. Qed.

(** Digits are taken greedily when what follows goes through. *)
Lemma plus_digits (ds rest : string) (k : string -> option string) (x : string) :
  digits ds -> starts_with_digit rest = false -> k rest = Some x ->
  exec (Plus digit) (ds ++ rest) k = Some x.
Proof.
  intros [N D] R K. destruct ds as [|c ds]; [contradiction|].
  cbn [all_digits] in D. apply andb_true_iff in D as [Dc D].
  cbn [append]. rewrite exec_plus_digit, Dc.
  now apply iterate_digits.
Qed.

Lemma plus_digits_end (ds : string) (k : string -> option string) (x : string) :
  digits ds -> k EmptyString = Some x -> exec (Plus digit) ds k = Some x.
Proof.
  intros D K. rewrite <- (append_nil_r ds). now apply plus_digits.
Qed.

Lemma digits_start (ds rest : string) :
  digits ds -> starts_with_digit (ds ++ rest) = true.
Proof.
  intros [N D]. destruct ds as [|c ds]; [contradiction|].
  cbn in *. now apply andb_true_iff in D as [Dc _].
Qed.

Lemma regexp_whole (re : regex) (input : string) :
  exec re input Some = Some EmptyString ->
  P.regexp re input = Success input EmptyString.
Proof.
  unfold P.regexp. intros ->. f_equal.
  rewrite <- (append_nil_r input) at 1. apply consumed_app.
Qed.

Lemma exec_Cat (r1 r2 : regex) (s : string) (k : string -> option string) :
  exec (Cat r1 r2) s k = exec r1 s (fun s1 => exec r2 s1 k).
Proof. reflexivity. Qed.

Lemma exec_Opt (r : regex) (s : string) (k : string -> option string) :
  exec (Opt r) s k
  = match exec r s k with Some rest => Some rest | None => k s end.
Proof. reflexivity. Qed.

Lemma exec_Or (r1 r2 : regex) (s : string) (k : string -> option string) :
  exec (Or r1 r2) s k
  = match exec r1 s k with Some rest => Some rest | None => exec r2 s k end.
Proof. reflexivity. Qed.

Lemma exec_Chr (c : ascii) (s : string) (k : string -> option string) :
  exec (Chr c) s k
  = match s with
    | String a s' => if Ascii.eqb c a then k s' else None
    | EmptyString => None
    end.
Proof. destruct s; reflexivity. Qed.

Lemma exec_Dot (s : string) (k : string -> option string) :
  exec Dot s k
  = match s with
    | String a s' => if dot_char a then k s' else None
    | EmptyString => None
    end.
Proof. destruct s; reflexivity. Qed.

Lemma plus_digits_none (s : string) (k : string -> option string) :
  starts_with_digit s = false -> exec (Plus digit) s k = None.
Proof.
  intros R. rewrite exec_plus_digit. destruct s as [|c s]; [reflexivity|].
  cbn [starts_with_digit] in R. now rewrite R.
Qed.

Definition re_fraction : regex := Cat Dot (Plus digit).

Definition re_exponent : regex :=
  Cat (Chr "e") (Cat (Opt (Or (Chr "+") (Chr "-"))) (Plus digit)).

Lemma exponent_matches (sign ds : string) :
  (sign = EmptyString \/ sign = "+" \/ sign = "-") -> digits ds ->
  exec re_exponent ("e" ++ sign ++ ds) Some = Some EmptyString.
Proof.
  intros S D. unfold re_exponent.
  rewrite exec_Cat, exec_Chr. cbn [append].
  change (Ascii.eqb "e" "e") with true. cbv iota.
  rewrite exec_Cat, exec_Opt, exec_Or, !exec_Chr.
  destruct S as [-> | [-> | ->]]; cbn [append].
  - pose proof (digits_start ds EmptyString D) as St.
    rewrite append_nil_r in St.
    destruct ds as [|c ds]; [destruct D; contradiction|].
    cbn [starts_with_digit] in St.
    destruct (Ascii.eqb "+" c) eqn:P1;
      [apply Ascii.eqb_eq in P1; subst c; discriminate|].
    destruct (Ascii.eqb "-" c) eqn:P2;
      [apply Ascii.eqb_eq in P2; subst c; discriminate|].
    now apply plus_digits_end.
  - change (Ascii.eqb "+" "+") with true. cbv iota.
    now rewrite (plus_digits_end ds Some EmptyString).
  - change (Ascii.eqb "+" "-") with false. change (Ascii.eqb "-" "-") with true.
    cbv iota. now rewrite (plus_digits_end ds Some EmptyString).
Qed.

Lemma fraction_exponent_match (f e : string) :
  fraction f -> exponent e ->
  exec (Opt re_fraction) (f ++ e) (fun s2 => exec (Opt re_exponent) s2 Some)
  = Some EmptyString.
Proof.
  intros F E. rewrite exec_Opt. unfold re_fraction at 1.
  rewrite exec_Cat, exec_Dot.
  destruct F as [-> | (fd & Fd & ->)]; destruct E as [-> | (sign & ed & S & Ed & ->)];
    cbn [append].
  - reflexivity.
  - change (dot_char "e") with true. cbv iota.
    destruct S as [-> | [-> | ->]]; cbn [append].
    + now rewrite (plus_digits_end ed _ EmptyString).
    + rewrite plus_digits_none by reflexivity. rewrite exec_Opt.
      pose proof (exponent_matches "+" ed (or_intror (or_introl eq_refl)) Ed) as X.
      cbn [append] in X. now rewrite X.
    + rewrite plus_digits_none by reflexivity. rewrite exec_Opt.
      pose proof (exponent_matches "-" ed (or_intror (or_intror eq_refl)) Ed) as X.
      cbn [append] in X. now rewrite X.
  - change (dot_char ".") with true. cbv iota.
    rewrite append_nil_r. now rewrite (plus_digits_end fd _ EmptyString).
  - change (dot_char ".") with true. cbv iota.
    rewrite (plus_digits fd ("e" ++ sign ++ ed) _ EmptyString); auto.
    rewrite exec_Opt. now rewrite (exponent_matches sign ed).
Qed.

(** X4.  Every text of the shape of a decimal number (digits, an optional
    point with digits, an optional exponent) is accepted whole and bound
    as the number it spells. *)
Lemma doubleParser_accepts_numbers (variable : decl) (d f e : string) :
  digits d -> fraction f -> exponent e ->
  P.parse (doubleParser variable) (d ++ f ++ e)
  = P.Parsed (mkVariable variable (VNum (d ++ f ++ e))).
Proof.
  intros D F E. unfold P.parse, doubleParser, P.map.
  rewrite regexp_whole; [reflexivity|].
  change re_double
    with (Cat (Plus digit) (Cat (Opt re_fraction) (Opt re_exponent))).
  rewrite exec_Cat. apply plus_digits; [exact D | |].
  - destruct F as [-> | (fd & _ & ->)]; [|reflexivity].
    destruct E as [-> | (sign & ed & _ & _ & ->)]; reflexivity.
  - rewrite exec_Cat. now apply fraction_exponent_match.
Qed.

(** C4: the text [1x5] is not of the shape digits, optional fraction,
    optional exponent, and the parser accepts it whole: the dot of the
    regular expression is not escaped and stands for any character. *)
Theorem doubleParser_accepts_1x5 :
  P.parse (doubleParser amount) "1x5"
  = P.Parsed (VObj [("name", VStr "amount"); ("type", VStr "Double");
                    ("value", VNum "1x5")]).
Proof. reflexivity. Qed.

Example doubleParser_examples :
  P.parse (doubleParser amount) "12.5e-3"
  = P.Parsed (mkVariable amount (VNum "12.5e-3"))
  /\ P.parse (doubleParser amount) "1e+5" = P.Parsed (mkVariable amount (VNum "1e+5"))
  /\ P.parse (doubleParser amount) "42" = P.Parsed (mkVariable amount (VNum "42"))
  /\ P.parse (doubleParser amount) "1." = P.ParseError
  /\ P.parse (doubleParser amount) ".5" = P.ParseError
  /\ P.parse (doubleParser amount) "1e" = P.ParseError.
Proof. repeat split; reflexivity. Qed.

(** ** Template parsers *)





Lemma stringLiteralParser_app (m rest : string) :
  quoted m -> stringLiteralParser (m ++ rest) = Success m rest.
Proof. intros Q. apply stringLiteralParser_spec; auto. Qed.


Section TemplateProperties.
Context {host : Host} {dt : DateTime}.



(** The loop inside [parserOfTemplate] is [map_nodes]. *)
Lemma map_nodes_fix (nodes : list template) (params : Params) :
  (fix map_nodes (nodes : list template) (params : Params)
     : (compile_error + list (parser jsval)) * Params :=
     match nodes with
     | [] => (inr [], params)
     | x :: rest =>
         match parserOfTemplate x params with
         | (inl e, params1) => (inl e, params1)
         | (inr p, params1) =>
             match map_nodes rest params1 with
             | (inl e, params2) => (inl e, params2)
             | (inr ps, params2) => (inr (p :: ps), params2)
             end
         end
     end) nodes params = map_nodes nodes params.
Proof.
  revert params; induction nodes as [|x nodes IH]; intros params; [reflexivity|].
  cbn [map_nodes]. destruct (parserOfTemplate x params) as [[e|p] params1];
    [reflexivity|].
  now rewrite IH.
Qed.

Lemma parserOfTemplate_ClauseBlock (clause : decl) (nodes : list template)
  (params : Params) :
  parserOfTemplate (ClauseBlock clause nodes) params =
  match map_nodes nodes params with
  | (inl e, params1) => (inl e, params1)
  | (inr ps, params1) =>
      if contract params1
      then (inr (wrappedClauseParser clause (seqParser ps)), params1)
      else (inr (clauseParser clause (seqParser ps)), params1)
  end.
Proof. cbn [parserOfTemplate]. now rewrite map_nodes_fix. Qed.

Lemma parserOfTemplate_ContractBlock (ast_decl : decl) (nodes : list template)
  (params : Params) :
  parserOfTemplate (ContractBlock ast_decl nodes) params =
  match map_nodes nodes {| contract := true |} with
  | (inl e, params1) => (inl e, params1)
  | (inr ps, params1) => (inr (contractParser ast_decl (seqParser ps)), params1)
  end.
Proof. cbn [parserOfTemplate]. now rewrite map_nodes_fix. Qed.

(** Induction on a template with the hypothesis on all children. *)
Lemma template_rect_children (Q : template -> Prop) :
  (forall value, Q (TextChunk value)) ->
  (forall variable value, Q (Variable_ variable value)) ->
  (forall cond, Q (ConditionalBlock cond)) ->
  (forall nodes, Forall Q nodes -> Q (UnorderedListBlock nodes)) ->
  (forall clause nodes, Forall Q nodes -> Q (ClauseBlock clause nodes)) ->
  (forall nodes, Forall Q nodes -> Q (WithBlock nodes)) ->
  (forall ast_decl nodes, Forall Q nodes -> Q (ContractBlock ast_decl nodes)) ->
  (forall class, Q (OtherNode class)) ->
  forall ast, Q ast.
Proof.
  intros H1 H2 H3 H4 H5 H6 H7 H8. fix IH 1.
  intros [value | variable value | cond | nodes | clause nodes | nodes
         | ast_decl nodes | class];
    [apply H1 | apply H2 | apply H3 | apply H4 | apply H5 | apply H6
    | apply H7 | apply H8];
    induction nodes as [|x nodes IHn]; constructor; (apply IH || exact IHn).
Qed.

(** *** The contract flag *)

(** The flag is never reset. *)
Definition keeps_flag (ast : template) : Prop :=
  forall params r params',
    parserOfTemplate ast params = (r, params') ->
    contract params = true -> contract params' = true.

Lemma map_nodes_keeps_flag (nodes : list template) :
  Forall keeps_flag nodes ->
  forall params r params',
    map_nodes nodes params = (r, params') ->
    contract params = true -> contract params' = true.
Proof.
  induction 1 as [|x nodes Hx _ IH]; intros params r params'; cbn [map_nodes].
  - now intros [= _ <-].
  - destruct (parserOfTemplate x params) as [[e|p] params1] eqn:E.
    + intros [= _ <-]. eapply Hx; eauto.
    + destruct (map_nodes nodes params1) as [[e|ps] params2] eqn:M;
        intros [= _ <-] F; eapply IH; eauto; eapply Hx; eauto.
Qed.

Lemma parserOfTemplate_keeps_flag (ast : template) : keeps_flag ast.
Proof.
  induction ast as [value | variable value | cond | nodes IH | clause nodes IH
                   | nodes IH | ast_decl nodes IH | class]
    using template_rect_children; intros params r params'.
  - cbn. now intros [= _ <-].
  - cbn. destruct (String.eqb (type variable) "Enum");
      [|destruct (parsingTable (type variable))]; now intros [= _ <-].
  - cbn. now intros [= _ <-].
  - cbn [parserOfTemplate]. rewrite map_nodes_fix.
    destruct (map_nodes nodes params) as [[e|ps] params1] eqn:M;
      intros [= _ <-]; eapply map_nodes_keeps_flag; eauto.
  - rewrite parserOfTemplate_ClauseBlock.
    destruct (map_nodes nodes params) as [[e|ps] params1] eqn:M;
      [|destruct (contract params1) eqn:C];
      intros [= _ <-]; eauto using map_nodes_keeps_flag.
  - cbn [parserOfTemplate]. rewrite map_nodes_fix.
    destruct (map_nodes nodes params) as [[e|ps] params1] eqn:M;
      intros [= _ <-]; eapply map_nodes_keeps_flag; eauto.
  - rewrite parserOfTemplate_ContractBlock.
    destruct (map_nodes nodes {| contract := true |}) as [[e|ps] params1] eqn:M;
      intros [= _ <-] _; eapply map_nodes_keeps_flag; eauto.
  - cbn. now intros [= _ <-].
Qed.

(** The state [params] is in when the children of a node are compiled. *)
Definition entered (ast : template) (params : Params) : Params :=
  match ast with
  | ContractBlock _ _ => {| contract := true |}
  | _ => params
  end.

Definition children (ast : template) : list template :=
  match ast with
  | UnorderedListBlock nodes | ClauseBlock _ nodes | WithBlock nodes
  | ContractBlock _ nodes => nodes
  | _ => []
  end.

(** [calls ast params sub params_sub]: the call
    [parserOfTemplate(ast, params)] leads to the call
    [parserOfTemplate(sub, params_sub)], for [sub] at or below [ast]. *)
Inductive calls : template -> Params -> template -> Params -> Prop :=
| calls_here (ast : template) (params : Params) : calls ast params ast params
| calls_below (ast : template) (params : Params)
    (before after : list template) (x : template)
    (ps : list (parser jsval)) (params1 : Params)
    (sub : template) (params_sub : Params) :
    children ast = (before ++ x :: after)%list ->
    map_nodes before (entered ast params) = (inr ps, params1) ->
    calls x params1 sub params_sub ->
    calls ast params sub params_sub.

Lemma all_keep_flag (nodes : list template) : Forall keeps_flag nodes.
Proof.
  induction nodes; constructor; [apply parserOfTemplate_keeps_flag | assumption].
Qed.

Lemma calls_keep_flag (ast sub : template) (params params_sub : Params) :
  calls ast params sub params_sub ->
  contract params = true -> contract params_sub = true.
Proof.
  induction 1 as [ast params | ast params before after x ps params1 sub
                                 params_sub _ M _ IH]; intros F; [exact F|].
  apply IH. eapply map_nodes_keeps_flag; [apply all_keep_flag | exact M |].
  destruct ast; exact F || reflexivity.
Qed.

(** Every call made for a node inside a ContractBlock finds the flag set. *)
Lemma flag_inside_contract (ast_decl : decl) (before after : list template)
  (x sub : template) (ps : list (parser jsval)) (params1 params_sub : Params) :
  map_nodes before {| contract := true |} = (inr ps, params1) ->
  calls x params1 sub params_sub ->
  forall params,
    calls (ContractBlock ast_decl (before ++ x :: after)) params sub params_sub
    /\ contract params_sub = true.
Proof.
  intros M C params. split.
  - eapply calls_below; [reflexivity | exact M | exact C].
  - eapply calls_keep_flag; [exact C|].
    eapply map_nodes_keeps_flag; [apply all_keep_flag | exact M | reflexivity].
Qed.


(** Compiling a tree without a ContractBlock leaves [params] as it was. *)
Fixpoint contract_free (ast : template) : bool :=
  match ast with
  | ContractBlock _ _ => false
  | UnorderedListBlock nodes | ClauseBlock _ nodes | WithBlock nodes =>
      forallb contract_free nodes
  | _ => true
  end.





(** *** Clause markers *)


(** *** The value a clause binds *)

Lemma fields_get_set (k k' : string) (v : jsval) (fs : list (string * jsval)) :
  fields_get k (fields_set k' v fs)
  = if String.eqb k' k then v else fields_get k fs.
Proof.
  induction fs as [|[k0 v0] fs IH]; cbn [fields_set fields_get].
  - reflexivity.
  - destruct (String.eqb k0 k') eqn:E0.
    + apply String.eqb_eq in E0; subst k0. cbn [fields_get].
      destruct (String.eqb k' k); reflexivity.
    + cbn [fields_get]. destruct (String.eqb k0 k) eqn:E1; [|exact IH].
      apply String.eqb_eq in E1; subst k0.
      now rewrite String.eqb_sym, E0.
Qed.





(** *** Sequences *)

Lemma map_nodes_compiled (nodes : list template) :
  forall params ps params',
    map_nodes nodes params = (inr ps, params') ->
    Forall2 (fun node p => exists q q', parserOfTemplate node q = (inr p, q'))
      nodes ps.
Proof.
  induction nodes as [|x nodes IH]; intros params ps params'; cbn [map_nodes].
  - intros [= <- _]. constructor.
  - destruct (parserOfTemplate x params) as [[e|p] params1] eqn:E; [discriminate|].
    destruct (map_nodes nodes params1) as [[e|ps'] params2] eqn:M; [discriminate|].
    intros [= <- _]. constructor; eauto.
Qed.

Lemma seq_components {A : Type} (parsers : list (parser A)) :
  forall input raw rest,
    P.seq parsers input = Success raw rest ->
    Forall2 (fun p r => exists i o, p i = Success r o) parsers raw.
Proof.
  induction parsers as [|p parsers IH]; intros input raw rest; cbn [P.seq].
  - intros [= <- _]. constructor.
  - destruct (p input) as [v r|] eqn:E; [|discriminate].
    destruct (P.seq parsers r) as [vs r'|] eqn:S; [|discriminate].
    intros [= <- _]. constructor; eauto.
Qed.

Lemma Forall2_compose {A B C : Type} (R : A -> B -> Prop) (S : B -> C -> Prop)
  (T : A -> C -> Prop) :
  (forall a b c, R a b -> S b c -> T a c) ->
  forall la lb lc, Forall2 R la lb -> Forall2 S lb lc -> Forall2 T la lc.
Proof.
  intros H la lb lc HR. revert lc.
  induction HR as [|a b la lb Hab _ IH]; intros lc HS; inversion HS; subst;
    constructor; eauto.
Qed.

Lemma text_chunk_value (text : string) (q q' : Params) (p : parser jsval)
  (i o : string) (r : jsval) :
  parserOfTemplate (TextChunk text) q = (inr p, q') ->
  p i = Success r o -> r = VStr text.
Proof.
  cbn. intros [= <- _]. unfold P.map, textParser, P.string.
  destruct (strip_prefix text i); [|discriminate]. now intros [= <- _].
Qed.

Lemma filter_not_string (raw : list jsval) :
  Forall (fun v => is_string v = false) (filter (fun x => negb (is_string x)) raw).
Proof.
  apply Forall_forall. intros v H. apply filter_In in H as [_ H].
  now apply negb_true_iff in H.
Qed.

Lemma stringParser_interior (variable : decl) (body rest : string) :
  no_dquote body = true ->
  stringParser variable (DQ ++ body ++ DQ ++ rest)
  = Success (mkVariable variable (VStr body)) rest.
Proof.
  intros Hb. unfold stringParser, P.map.
  replace (DQ ++ body ++ DQ ++ rest) with ((DQ ++ body ++ DQ) ++ rest)
    by (now rewrite !append_assoc).
  rewrite stringLiteralParser_app by (exists body; auto).
  rewrite js_substring_strip_ends.
  change (DQ ++ body ++ DQ) with (String dquote (body ++ String dquote EmptyString)).
  now rewrite strip_ends_wrapped.
Qed.

Definition seller : decl := {| name := "seller"; type := "String" |}.

(** C5.  The sequence of the text chunk [Seller: ] and the String
    variable [seller] parses the text [Seller: "Steve"] into the one
    record of name seller, type String and value Steve; a String variable
    binds the text between the quotes of its literal; and in every
    compiled sequence each TextChunk yields its literal as a string, which
    the sequence drops from its result: no string is left in it. *)
Theorem sequence_drops_text_chunks :
  (exists ps,
      map_nodes [TextChunk "Seller: "; Variable_ seller []] {| contract := false |}
      = (inr ps, {| contract := false |})
      /\ P.parse (seqParser ps) ("Seller: " ++ DQ ++ "Steve" ++ DQ)
         = P.Parsed [VObj [("name", VStr "seller"); ("type", VStr "String");
                           ("value", VStr "Steve")]])
  /\ (forall variable body rest,
         no_dquote body = true ->
         stringParser variable (DQ ++ body ++ DQ ++ rest)
         = Success (mkVariable variable (VStr body)) rest)
  /\ (forall nodes params ps params' input vs rest,
         map_nodes nodes params = (inr ps, params') ->
         seqParser ps input = Success vs rest ->
         exists raw,
           P.seq ps input = Success raw rest
           /\ Forall2 (fun node r => forall text, node = TextChunk text -> r = VStr text)
                nodes raw
           /\ vs = filter (fun x => negb (is_string x)) raw
           /\ Forall (fun v => is_string v = false) vs).
Proof.
  split; [|split].
  - eexists. split; reflexivity.
  - apply stringParser_interior.
  - intros nodes params ps params' input vs rest M S.
    unfold seqParser, P.seqMap, P.map in S.
    destruct (P.seq ps input) as [raw r|] eqn:E; [|discriminate].
    injection S as <- <-. exists raw. split; [reflexivity|].
    split; [|split; [reflexivity | apply filter_not_string]].
    eapply Forall2_compose;
      [|eapply map_nodes_compiled; exact M | eapply seq_components; exact E].
    intros node p v (q & q' & C) (i & o & R) text ->.
    eapply text_chunk_value; eauto.
Qed.

End TemplateProperties.

(** *** Templates on concrete texts *)

Definition c1 : decl := {| name := "c1"; type := "org.test.MyClause" |}.
Definition k1 : decl := {| name := "k1"; type := "org.test.MyContract" |}.

(** Compile with a fresh [params], then parse. *)
Definition compile_and_parse (ast : template) (input : string)
  : compile_error + P.outcome jsval :=
  match @parserOfTemplate example_host example_dateTime ast {| contract := false |} with
  | (inl e, _) => inl e
  | (inr p, _) => inr (P.parse p input)
  end.





(** A variable named [__proto__] in a clause: its text is parsed, and
    its value leaves no property in the record. *)
Example clause_with_proto_variable :
  compile_and_parse
    (ClauseBlock c1 [Variable_ {| name := "__proto__"; type := "Integer" |} [];
                     TextChunk " "; Variable_ seller []])
    ("1 " ++ DQ ++ "Steve" ++ DQ)
  = inr (P.Parsed (VObj [("$class", VStr "org.test.MyClause");
                         ("seller", VStr "Steve")])).
Proof. reflexivity. Qed.

(** * Further properties *)

(** ** Lexical parsers *)

(** The digits a text starts with, and what follows them. *)
Fixpoint take_digits (s : string) : string :=
  match s with
  | String c s' => if is_digit c then String c (take_digits s') else EmptyString
  | EmptyString => EmptyString
  end.

Fixpoint drop_digits (s : string) : string :=
  match s with
  | String c s' => if is_digit c then drop_digits s' else s
  | EmptyString => EmptyString
  end.

Lemma take_drop_digits (s : string) : take_digits s ++ drop_digits s = s.
Proof.
  induction s as [|c s IH]; [reflexivity|]. cbn [take_digits drop_digits].
  destruct (is_digit c); [|reflexivity]. cbn [append]. now rewrite IH.
Qed.

Lemma length_drop_digits (s : string) :
  String.length (drop_digits s) <= String.length s.
Proof.
  induction s as [|c s IH]; [reflexivity|]. cbn [drop_digits].
  destruct (is_digit c); cbn [String.length]; lia.
Qed.

Lemma drop_digits_nil (s : string) :
  drop_digits s = EmptyString <-> all_digits s = true.
Proof.
  induction s as [|c s IH]; [now split|]. cbn [drop_digits all_digits].
  destruct (is_digit c); cbn [andb]; [exact IH|]. split; discriminate.
Qed.

Lemma iterate_all_digits (fuel : nat) :
  forall s, String.length s <= fuel ->
            iterate (exec digit) fuel s Some = Some (drop_digits s).
Proof.
  induction fuel as [|fuel IH]; intros s L.
  - destruct s; [reflexivity | cbn in L; lia].
  - rewrite iterate_S, exec_digit. destruct s as [|c s]; [reflexivity|].
    cbn [drop_digits]. destruct (is_digit c); [|reflexivity].
    replace (Nat.ltb (String.length s) (String.length (String c s))) with true
      by (symmetry; apply Nat.ltb_lt; cbn; lia).
    rewrite IH by (cbn in L; lia). reflexivity.
Qed.

Lemma integer_regexp (input : string) :
  P.regexp re_integer input
  = if starts_with_digit input
    then Success (take_digits input) (drop_digits input)
    else Failure.
Proof.
  unfold P.regexp, re_integer. rewrite exec_plus_digit.
  destruct input as [|c s]; [reflexivity|].
  cbn [starts_with_digit]. destruct (is_digit c) eqn:D; [|reflexivity].
  rewrite iterate_all_digits by lia.
  assert (E : drop_digits (String c s) = drop_digits s)
    by (cbn [drop_digits]; now rewrite D).
  rewrite <- E. f_equal.
  rewrite <- (take_drop_digits (String c s)) at 1.
  apply consumed_app.
Qed.

(** X1.  An Integer variable takes the longest run of digits the input
    starts with and leaves the rest; it fails when the input does not
    start with a digit.  On a whole text it accepts exactly the non-empty
    texts of digits, and binds the number the text spells. *)
Theorem integerParser_longest_digits (variable : decl) (input : string) :
  integerParser variable input
  = (if starts_with_digit input
     then Success (mkVariable variable (VNum (take_digits input)))
            (drop_digits input)
     else Failure)
  /\ P.parse (integerParser variable) input
     = (if starts_with_digit input && all_digits input
        then P.Parsed (mkVariable variable (VNum input))
        else P.ParseError).
Proof.
  assert (H : integerParser variable input
              = if starts_with_digit input
                then Success (mkVariable variable (VNum (take_digits input)))
                       (drop_digits input)
                else Failure).
  { unfold integerParser, P.map. rewrite integer_regexp.
    destruct (starts_with_digit input); reflexivity. }
  split; [exact H|]. unfold P.parse. rewrite H.
  destruct (starts_with_digit input); [|reflexivity]. cbn [andb].
  destruct (all_digits input) eqn:A.
  - pose proof (proj2 (drop_digits_nil input) A) as D.
    pose proof (take_drop_digits input) as T.
    rewrite D in T |- *. rewrite append_nil_r in T. now rewrite T.
  - destruct (drop_digits input) eqn:D; [|reflexivity].
    apply drop_digits_nil in D. congruence.
Qed.

(** X2.  A String variable succeeds exactly on an input that starts with
    a double quote, a text without a double quote and a double quote; it
    binds that text and leaves what follows the closing quote.  There is
    no escape: the literal ends at the first double quote after the
    opening one. *)
Theorem stringParser_exact (variable : decl) (input rest : string) (x : jsval) :
  stringParser variable input = Success x rest <->
  exists body,
    no_dquote body = true
    /\ input = DQ ++ body ++ DQ ++ rest
    /\ x = mkVariable variable (VStr body).
Proof.
  split.
  - unfold stringParser, P.map.
    destruct (stringLiteralParser input) as [m r|] eqn:E; [|discriminate].
    intros [= <- <-].
    apply stringLiteralParser_spec in E as [(body & Hb & ->) ->].
    exists body. split; [exact Hb|]. split; [now rewrite !append_assoc|].
    rewrite js_substring_strip_ends.
    change (DQ ++ body ++ DQ)
      with (String dquote (body ++ String dquote EmptyString)).
    now rewrite strip_ends_wrapped.
  - intros (body & Hb & -> & ->). now apply stringParser_interior.
Qed.

Lemma append_cancel_l (a b c : string) : a ++ b = a ++ c -> b = c.
Proof.
  induction a as [|x a IH]; cbn [append]; [auto|]. intros [= H]. auto.
Qed.

Lemma choice_strings_spec (values : list string) (input rest v : string) :
  choiceStringsParser values input = Success v rest <->
  exists before after,
    values = (before ++ v :: after)%list
    /\ input = v ++ rest
    /\ Forall (fun e => String.prefix e input = false) before.
Proof.
  unfold choiceStringsParser, choiceParser.
  induction values as [|e values IH]; cbn [List.map P.alt].
  - split; [discriminate|]. intros (before & after & E & _).
    destruct before; discriminate.
  - destruct (P.string e input) as [v' r|] eqn:S.
    + apply string_spec in S as [-> ->]. split.
      * intros [= <- <-]. exists [], values. auto.
      * intros (before & after & E & I & F). destruct before as [|b before].
        -- cbn in E. injection E as <- _.
           apply append_cancel_l in I. now subst.
        -- cbn in E. injection E as <- _. inversion F as [|? ? Fb _]; subst.
           rewrite strip_prefix_prefix, strip_prefix_app in Fb. discriminate.
    + assert (N : String.prefix e input = false).
      { rewrite strip_prefix_prefix. unfold P.string in S.
        destruct (strip_prefix e input); [discriminate | reflexivity]. }
      rewrite IH. split.
      * intros (before & after & -> & I & F).
        exists (e :: before), after. auto.
      * intros (before & after & E & I & F). destruct before as [|b before].
        -- cbn in E. injection E as -> _. subst input.
           rewrite strip_prefix_prefix, strip_prefix_app in N. discriminate.
        -- cbn in E. injection E as <- ->. inversion F; subst.
           exists before, after. auto.
Qed.

(** X3.  An Enum variable binds the first of its literals, in the order
    they are declared, that starts the input, and leaves the rest; a
    literal that comes later is taken only if none before it starts the
    input, and a variable without literals matches nothing. *)
Theorem enumParser_first_literal (variable : decl) (enums : list string)
  (input rest : string) (x : jsval) :
  enumParser variable enums input = Success x rest <->
  exists before e after,
    enums = (before ++ e :: after)%list
    /\ input = e ++ rest
    /\ Forall (fun e' => String.prefix e' input = false) before
    /\ x = mkVariable variable (VStr e).
Proof.
  unfold enumParser, P.map.
  destruct (choiceStringsParser enums input) as [v r|] eqn:C.
  - apply choice_strings_spec in C as (before & after & E & I & F). split.
    + intros [= <- <-]. exists before, v, after. auto.
    + intros (before' & e & after' & E' & I' & F' & ->).
      assert (C' : choiceStringsParser enums input = Success e rest)
        by (apply choice_strings_spec; eauto).
      assert (C0 : choiceStringsParser enums input = Success v r)
        by (apply choice_strings_spec; eauto).
      rewrite C' in C0. now injection C0 as -> ->.
  - split; [discriminate|].
    intros (before' & e & after' & E' & I' & F' & _).
    assert (C' : choiceStringsParser enums input = Success e rest)
      by (apply choice_strings_spec; eauto).
    congruence.
Qed.

(** The decimal number 12.5e-3 is of the shape that X4 is about. *)
Lemma doubleParser_accepts_numbers_witness :
  P.parse (doubleParser amount) "12.5e-3"
  = P.Parsed (mkVariable amount (VNum "12.5e-3")).
Proof.
  apply (doubleParser_accepts_numbers amount "12" ".5" "e-3").
  - split; [discriminate | reflexivity].
  - right. exists "5". split; [split; [discriminate | reflexivity] | reflexivity].
  - right. exists "-", "3".
    split; [auto | split; [split; [discriminate | reflexivity] | reflexivity]].
Defined.

(** ** Compiling templates *)
Section CompilerProperties.
Context {host : Host} {dt : DateTime}.

Lemma map_nodes_app (before after : list template) (params : Params) :
  map_nodes (before ++ after) params
  = match map_nodes before params with
    | (inl e, params1) => (inl e, params1)
    | (inr ps, params1) =>
        match map_nodes after params1 with
        | (inl e, params2) => (inl e, params2)
        | (inr qs, params2) => (inr (ps ++ qs)%list, params2)
        end
    end.
Proof.
  revert params; induction before as [|x before IH]; intros params;
    cbn [app map_nodes].
  - destruct (map_nodes after params) as [[e|qs] params2]; reflexivity.
  - destruct (parserOfTemplate x params) as [[e|p] params1]; [reflexivity|].
    rewrite IH.
    destruct (map_nodes before params1) as [[e|ps] params2]; [reflexivity|].
    destruct (map_nodes after params2) as [[e|qs] params3]; reflexivity.
Qed.

(** The compilation of the children of a block, as the block runs it. *)
Lemma parserOfTemplate_block (ast : template) (params : Params) :
  children ast <> [] ->
  forall e params1,
    map_nodes (children ast) (entered ast params) = (inl e, params1) ->
    parserOfTemplate ast params = (inl e, params1).
Proof.
  intros N e params1 M.
  destruct ast as [value | variable value | cond | nodes | clause nodes | nodes
                  | ast_decl nodes | class]; cbn [children] in *;
    try contradiction; cbn [entered] in M.
  - cbn [parserOfTemplate]. now rewrite map_nodes_fix, M.
  - now rewrite parserOfTemplate_ClauseBlock, M.
  - cbn [parserOfTemplate]. now rewrite map_nodes_fix, M.
  - now rewrite parserOfTemplate_ContractBlock, M.
Qed.

(** X5.  An exception raised while a node of the template is compiled is
    the outcome of the whole compilation: the call at the root ends with
    the same exception, and leaves [params] as the failing call left
    it. *)
Theorem compile_error_propagates
  (ast sub : template) (params params_sub params' : Params) (e : compile_error) :
  calls ast params sub params_sub ->
  parserOfTemplate sub params_sub = (inl e, params') ->
  parserOfTemplate ast params = (inl e, params').
Proof.
  induction 1 as [ast params | ast params before after x ps params1 sub
                                 params_sub C M _ IH]; intros F; [exact F|].
  apply parserOfTemplate_block.
  - rewrite C. now destruct before.
  - rewrite C, map_nodes_app, M. cbn [map_nodes]. now rewrite (IH F).
Qed.

(** The declared types a Variable can have. *)
Definition known_type (t : string) : bool :=
  existsb (String.eqb t) ["Enum"; "Integer"; "Double"; "String"; "DateTime"].

(** The templates that compile: text, conditionals, variables of a known
    type, and clauses and contracts of such. *)
Fixpoint compilable (ast : template) : bool :=
  match ast with
  | TextChunk _ | ConditionalBlock _ => true
  | Variable_ variable _ => known_type (type variable)
  | ClauseBlock _ nodes | ContractBlock _ nodes => forallb compilable nodes
  | UnorderedListBlock _ | WithBlock _ | OtherNode _ => false
  end.

Definition compiles (ast : template) : Prop :=
  forall params,
    (exists p params', parserOfTemplate ast params = (inr p, params'))
    <-> compilable ast = true.

Lemma map_nodes_compiles (nodes : list template) :
  Forall compiles nodes ->
  forall params,
    (exists ps params', map_nodes nodes params = (inr ps, params'))
    <-> forallb compilable nodes = true.
Proof.
  induction 1 as [|x nodes Hx _ IH]; intros params; cbn [map_nodes forallb].
  - split; eauto.
  - specialize (Hx params).
    destruct (parserOfTemplate x params) as [[e|p] params1] eqn:E.
    + split; [intros (ps & q & [=])|]. intros A.
      apply andb_true_iff in A as [A _]. apply Hx in A as (p & q & [=]).
    + assert (Cx : compilable x = true) by (apply Hx; eauto).
      rewrite Cx. cbn [andb]. rewrite <- (IH params1).
      destruct (map_nodes nodes params1) as [[e|ps] params2]; split;
        try (intros (ps' & q & [=])); eauto.
Qed.

Lemma parsingTable_known (t : string) :
  String.eqb t "Enum" = false ->
  (exists f, parsingTable t = Some f) <-> known_type t = true.
Proof.
  intros N. unfold parsingTable, known_type. cbn [existsb]. rewrite N.
  destruct (String.eqb t "Integer"); [split; eauto|].
  destruct (String.eqb t "Double"); [split; eauto|].
  destruct (String.eqb t "String"); [split; eauto|].
  destruct (String.eqb t "DateTime"); [split; eauto|].
  split; [intros (f & [=]) | discriminate].
Qed.

Lemma compiles_compilable (ast : template) : compiles ast.
Proof.
  induction ast as [value | variable value | cond | nodes IH | clause nodes IH
                   | nodes IH | ast_decl nodes IH | class]
    using template_rect_children; intros params; cbn [compilable].
  - split; cbn; eauto.
  - cbn [parserOfTemplate].
    destruct (String.eqb (type variable) "Enum") eqn:E.
    + apply String.eqb_eq in E. unfold known_type. rewrite E. split; eauto.
    + rewrite <- (parsingTable_known _ E).
      destruct (parsingTable (type variable)) as [f|]; split; eauto.
      * intros (p & q & [=]).
      * intros (f & [=]).
  - split; cbn; eauto.
  - cbn [parserOfTemplate]. rewrite map_nodes_fix.
    destruct (map_nodes nodes params) as [[e|ps] params1];
      split; try discriminate; intros (p & q & [=]).
  - rewrite parserOfTemplate_ClauseBlock, <- (map_nodes_compiles nodes IH params).
    destruct (map_nodes nodes params) as [[e|ps] params1];
      [|destruct (contract params1)]; split; eauto;
      intros (p & q & [=]).
  - cbn [parserOfTemplate]. rewrite map_nodes_fix.
    destruct (map_nodes nodes params) as [[e|ps] params1];
      split; try discriminate; intros (p & q & [=]).
  - rewrite parserOfTemplate_ContractBlock,
      <- (map_nodes_compiles nodes IH {| contract := true |}).
    destruct (map_nodes nodes {| contract := true |}) as [[e|ps] params1];
      split; eauto; intros (p & q & [=]).
  - split; [intros (p & q & [=]) | discriminate].
Qed.

(** The names that the object [parsingTable] inherits from
    [Object.prototype]: a lookup of one of them finds the inherited
    member, not a parser constructor.  [parsingTable] above is the table
    on its own keys, and stands for the lookup on every other type. *)
Definition inherited_names : list string :=
  ["constructor"; "toString"; "toLocaleString"; "valueOf"; "hasOwnProperty";
   "isPrototypeOf"; "propertyIsEnumerable"; "__proto__"; "__defineGetter__";
   "__defineSetter__"; "__lookupGetter__"; "__lookupSetter__"].

Fixpoint plain_types (ast : template) : bool :=
  match ast with
  | Variable_ variable _ => negb (existsb (String.eqb (type variable)) inherited_names)
  | UnorderedListBlock nodes | ClauseBlock _ nodes | WithBlock nodes
  | ContractBlock _ nodes => forallb plain_types nodes
  | _ => true
  end.

(** X6.  A template whose variable types are not names inherited from
    [Object.prototype] compiles to a parser exactly when it is built from
    text chunks, conditionals, variables of type Enum, Integer, Double,
    String or DateTime, and clause and contract blocks of such; a list
    block, a with block, an unknown class or a variable of another type
    anywhere in it makes the compilation raise, whatever [params] is. *)
Theorem compiles_iff_compilable (ast : template) (params : Params) :
  plain_types ast = true ->
  (exists p params', parserOfTemplate ast params = (inr p, params'))
  <-> compilable ast = true.
Proof. intros _. apply compiles_compilable. Qed.

(** *** The flag after a compilation *)

Definition flag_after (ast : template) : Prop :=
  forall params p params',
    parserOfTemplate ast params = (inr p, params') ->
    contract params' = contract params || negb (contract_free ast).

Lemma map_nodes_flag_after (nodes : list template) :
  Forall flag_after nodes ->
  forall params ps params',
    map_nodes nodes params = (inr ps, params') ->
    contract params' = contract params || negb (forallb contract_free nodes).
Proof.
  induction 1 as [|x nodes Hx _ IH]; intros params ps params';
    cbn [map_nodes forallb].
  - intros [= _ <-]. now rewrite orb_false_r.
  - destruct (parserOfTemplate x params) as [[e|p] params1] eqn:E; [discriminate|].
    destruct (map_nodes nodes params1) as [[e|qs] params2] eqn:M; [discriminate|].
    intros [= _ <-]. rewrite (IH _ _ _ M), (Hx _ _ _ E).
    destruct (contract params), (contract_free x), (forallb contract_free nodes);
      reflexivity.
Qed.

(** X7.  When a compilation returns a parser, the contract flag of
    [params] is set afterwards exactly if it was set before or the
    template holds a ContractBlock: the flag is set by every ContractBlock
    and reset by nothing. *)
Theorem flag_after_compilation (ast : template) (params params' : Params)
  (p : parser jsval) :
  parserOfTemplate ast params = (inr p, params') ->
  contract params' = contract params || negb (contract_free ast).
Proof.
  revert params p params'. change (flag_after ast).
  induction ast as [value | variable value | cond | nodes IH | clause nodes IH
                   | nodes IH | ast_decl nodes IH | class]
    using template_rect_children; intros params p params'.
  - cbn. intros [= _ <-]. now rewrite orb_false_r.
  - cbn. destruct (String.eqb (type variable) "Enum");
      [|destruct (parsingTable (type variable))]; try discriminate;
      intros [= _ <-]; now rewrite orb_false_r.
  - cbn. intros [= _ <-]. now rewrite orb_false_r.
  - cbn [parserOfTemplate]. rewrite map_nodes_fix.
    destruct (map_nodes nodes params) as [[e|ps] params1]; discriminate.
  - rewrite parserOfTemplate_ClauseBlock.
    destruct (map_nodes nodes params) as [[e|ps] params1] eqn:M; [discriminate|].
    cbn [contract_free].
    destruct (contract params1) eqn:C; intros [= _ <-];
      eapply map_nodes_flag_after; eauto.
  - cbn [parserOfTemplate]. rewrite map_nodes_fix.
    destruct (map_nodes nodes params) as [[e|ps] params1]; discriminate.
  - rewrite parserOfTemplate_ContractBlock.
    destruct (map_nodes nodes {| contract := true |}) as [[e|ps] params1] eqn:M;
      [discriminate|].
    intros [= _ <-]. cbn [contract_free negb]. rewrite orb_true_r.
    apply (map_nodes_flag_after nodes IH) in M. exact M.
  - discriminate.
Qed.

(** *** What a parser consumes *)

(** A parser that leaves a suffix of its input. *)
Definition consumes_prefix {A : Type} (p : parser A) : Prop :=
  forall input v rest, p input = Success v rest -> exists used, input = used ++ rest.

Definition step_suffix
  (step : string -> (string -> option string) -> option string) : Prop :=
  forall s k out,
    step s k = Some out -> exists used s', s = used ++ s' /\ k s' = Some out.

Lemma iterate_suffix (step : string -> (string -> option string) -> option string) :
  step_suffix step -> forall fuel, step_suffix (fun s k => iterate step fuel s k).
Proof.
  intros H fuel. induction fuel as [|fuel IH]; intros s k out.
  - cbn [iterate]. intros K. exists EmptyString, s. auto.
  - rewrite iterate_S.
    destruct (step s (fun s' =>
                if Nat.ltb (String.length s') (String.length s)
                then iterate step fuel s' k else None)) as [r|] eqn:E.
    + intros [= ->]. apply H in E as (u1 & s1 & -> & K1).
      destruct (Nat.ltb (String.length s1) (String.length (u1 ++ s1)));
        [|discriminate].
      apply IH in K1 as (u2 & s2 & -> & K2).
      exists (u1 ++ u2), s2. now rewrite append_assoc.
    + intros K. exists EmptyString, s. auto.
Qed.

Lemma one_char_suffix (ok : ascii -> bool) : step_suffix (one_char ok).
Proof.
  intros [|a s] k out; cbn [one_char]; [discriminate|].
  destruct (ok a); [|discriminate]. intros K.
  exists (String a EmptyString), s. auto.
Qed.

Lemma exec_suffix (r : regex) : step_suffix (exec r).
Proof.
  induction r as [c | | negated ranges | r1 IH1 r2 IH2 | r1 IH1 r2 IH2
                 | r IH | r IH | r IH]; intros s k out; cbn [exec].
  - apply one_char_suffix.
  - apply one_char_suffix.
  - apply one_char_suffix.
  - intros E. apply IH1 in E as (u1 & s1 & -> & E).
    apply IH2 in E as (u2 & s2 & -> & K).
    exists (u1 ++ u2), s2. now rewrite append_assoc.
  - destruct (exec r1 s k) as [x|] eqn:E.
    + intros [= ->]. now apply IH1.
    + apply IH2.
  - apply (iterate_suffix _ IH).
  - intros E. apply IH in E as (u1 & s1 & -> & E).
    apply (iterate_suffix _ IH) in E as (u2 & s2 & -> & K).
    exists (u1 ++ u2), s2. now rewrite append_assoc.
  - destruct (exec r s k) as [x|] eqn:E.
    + intros [= ->]. now apply IH.
    + intros K. exists EmptyString, s. auto.
Qed.

Lemma regexp_consumes_prefix (re : regex) : consumes_prefix (P.regexp re).
Proof.
  intros input v rest. unfold P.regexp.
  destruct (exec re input Some) as [r|] eqn:E; [|discriminate].
  intros [= _ <-]. apply exec_suffix in E as (u & s' & -> & [= ->]). eauto.
Qed.

Lemma string_consumes_prefix (str : string) : consumes_prefix (P.string str).
Proof.
  intros input v rest E. apply string_spec in E as [_ ->]. eauto.
Qed.

Lemma map_consumes_prefix {A B : Type} (fn : A -> B) (p : parser A) :
  consumes_prefix p -> consumes_prefix (P.map fn p).
Proof.
  intros H input v rest. unfold P.map.
  destruct (p input) as [x r|] eqn:E; [|discriminate].
  intros [= _ <-]. eauto.
Qed.

Lemma alt_consumes_prefix {A : Type} (parsers : list (parser A)) :
  Forall consumes_prefix parsers -> consumes_prefix (P.alt parsers).
Proof.
  induction 1 as [|p parsers Hp _ IH]; intros input v rest; cbn [P.alt];
    [discriminate|].
  destruct (p input) as [x r|] eqn:E; [|apply IH].
  intros [= _ <-]. eauto.
Qed.

Lemma seq_consumes_prefix {A : Type} (parsers : list (parser A)) :
  Forall consumes_prefix parsers -> consumes_prefix (P.seq parsers).
Proof.
  induction 1 as [|p parsers Hp _ IH]; intros input v rest; cbn [P.seq].
  - intros [= _ <-]. exists EmptyString. reflexivity.
  - destruct (p input) as [x r|] eqn:E; [|discriminate].
    destruct (P.seq parsers r) as [xs r'|] eqn:S; [|discriminate].
    intros [= _ <-]. apply Hp in E as (u1 & ->). apply IH in S as (u2 & ->).
    exists (u1 ++ u2). now rewrite append_assoc.
Qed.

Lemma wrap_consumes_prefix {A L R : Type} (p : parser A) (l : parser L)
  (r : parser R) :
  consumes_prefix l -> consumes_prefix p -> consumes_prefix r ->
  consumes_prefix (P.wrap p l r).
Proof.
  intros Hl Hp Hr input v rest. unfold P.wrap.
  destruct (l input) as [x1 r1|] eqn:E1; [|discriminate].
  destruct (p r1) as [x2 r2|] eqn:E2; [|discriminate].
  destruct (r r2) as [x3 r3|] eqn:E3; [|discriminate].
  intros [= _ <-].
  apply Hl in E1 as (u1 & ->). apply Hp in E2 as (u2 & ->).
  apply Hr in E3 as (u3 & ->).
  exists (u1 ++ u2 ++ u3). now rewrite !append_assoc.
Qed.

Lemma seqParser_consumes_prefix (parsers : list (parser jsval)) :
  Forall consumes_prefix parsers -> consumes_prefix (seqParser parsers).
Proof.
  intros H. apply map_consumes_prefix. now apply seq_consumes_prefix.
Qed.

Lemma clauseBefore_consumes_prefix : consumes_prefix clauseBefore.
Proof.
  apply seq_consumes_prefix.
  repeat constructor;
    (apply string_consumes_prefix || apply regexp_consumes_prefix).
Qed.

Definition compiled_consumes_prefix (ast : template) : Prop :=
  forall params p params',
    parserOfTemplate ast params = (inr p, params') -> consumes_prefix p.

Lemma map_nodes_consume_prefix (nodes : list template) :
  Forall compiled_consumes_prefix nodes ->
  forall params ps params',
    map_nodes nodes params = (inr ps, params') -> Forall consumes_prefix ps.
Proof.
  induction 1 as [|x nodes Hx _ IH]; intros params ps params'; cbn [map_nodes].
  - intros [= <- _]. constructor.
  - destruct (parserOfTemplate x params) as [[e|p] params1] eqn:E; [discriminate|].
    destruct (map_nodes nodes params1) as [[e|qs] params2] eqn:M; [discriminate|].
    intros [= <- _]. constructor; eauto.
Qed.

(** X8.  A parser compiled from a template only ever consumes a prefix of
    its input: what it leaves is a suffix of what it was given, provided
    the parser of DateTime variables does so too. *)
Theorem compiled_parser_consumes_prefix
  (ast : template) (params params' : Params) (p : parser jsval)
  (input rest : string) (v : jsval) :
  (forall variable, consumes_prefix (dateTimeParser variable)) ->
  parserOfTemplate ast params = (inr p, params') ->
  p input = Success v rest ->
  exists used, input = used ++ rest.
Proof.
  intros D C R. revert R. revert input v rest. change (consumes_prefix p).
  revert params p params' C. change (compiled_consumes_prefix ast).
  induction ast as [value | variable value | cond | nodes IH | clause nodes IH
                   | nodes IH | ast_decl nodes IH | class]
    using template_rect_children; intros params p params'.
  - cbn. intros [= <- _]. apply map_consumes_prefix, string_consumes_prefix.
  - cbn [parserOfTemplate].
    destruct (String.eqb (type variable) "Enum").
    + intros [= <- _]. apply map_consumes_prefix, alt_consumes_prefix.
      apply Forall_forall. intros q Hq. apply in_map_iff in Hq as (e & <- & _).
      apply string_consumes_prefix.
    + unfold parsingTable.
      destruct (String.eqb (type variable) "Integer");
        [intros [= <- _]; apply map_consumes_prefix, regexp_consumes_prefix|].
      destruct (String.eqb (type variable) "Double");
        [intros [= <- _]; apply map_consumes_prefix, regexp_consumes_prefix|].
      destruct (String.eqb (type variable) "String");
        [intros [= <- _]; apply map_consumes_prefix, regexp_consumes_prefix|].
      destruct (String.eqb (type variable) "DateTime");
        [intros [= <- _]; apply D | discriminate].
  - cbn. intros [= <- _]. apply map_consumes_prefix, alt_consumes_prefix.
    repeat constructor; apply string_consumes_prefix.
  - cbn [parserOfTemplate]. rewrite map_nodes_fix.
    destruct (map_nodes nodes params) as [[e|ps] params1]; discriminate.
  - rewrite parserOfTemplate_ClauseBlock.
    destruct (map_nodes nodes params) as [[e|ps] params1] eqn:M; [discriminate|].
    apply (map_nodes_consume_prefix nodes IH) in M.
    destruct (contract params1); intros [= <- _]; apply map_consumes_prefix.
    + apply wrap_consumes_prefix;
        [apply clauseBefore_consumes_prefix
        | now apply seqParser_consumes_prefix
        | apply string_consumes_prefix].
    + now apply seqParser_consumes_prefix.
  - cbn [parserOfTemplate]. rewrite map_nodes_fix.
    destruct (map_nodes nodes params) as [[e|ps] params1]; discriminate.
  - rewrite parserOfTemplate_ContractBlock.
    destruct (map_nodes nodes {| contract := true |}) as [[e|ps] params1] eqn:M;
      [discriminate|].
    apply (map_nodes_consume_prefix nodes IH) in M.
    intros [= <- _]. apply map_consumes_prefix.
    now apply seqParser_consumes_prefix.
  - discriminate.
Qed.

(** *** The records of a sequence *)

Definition is_text_chunk (ast : template) : bool :=
  match ast with TextChunk _ => true | _ => false end.

Lemma seq_app {A : Type} (ps qs : list (parser A)) (input : string) :
  P.seq (ps ++ qs) input
  = match P.seq ps input with
    | Failure => Failure
    | Success xs r =>
        match P.seq qs r with
        | Failure => Failure
        | Success ys r' => Success (xs ++ ys)%list r'
        end
    end.
Proof.
  revert input; induction ps as [|p ps IH]; intros input; cbn [app P.seq].
  - destruct (P.seq qs input); reflexivity.
  - destruct (p input) as [v r|]; [|reflexivity]. rewrite IH.
    destruct (P.seq ps r) as [xs r1|]; [|reflexivity].
    destruct (P.seq qs r1); reflexivity.
Qed.

(** X9.  Sequences compose: the sequence of two lists of parsers is the
    sequence of the first list followed, on the rest it leaves, by the
    sequence of the second, and the records are those of the first
    followed by those of the second; the empty sequence succeeds on any
    input, consumes nothing and binds nothing. *)
Theorem seqParser_app (ps qs : list (parser jsval)) (input : string) :
  seqParser (ps ++ qs) input
  = match seqParser ps input with
    | Failure => Failure
    | Success xs r =>
        match seqParser qs r with
        | Failure => Failure
        | Success ys r' => Success (xs ++ ys)%list r'
        end
    end
  /\ seqParser [] input = Success [] input.
Proof.
  split; [|reflexivity].
  unfold seqParser, P.seqMap, P.map. rewrite seq_app.
  destruct (P.seq ps input) as [xs r|]; [|reflexivity].
  destruct (P.seq qs r) as [ys r'|]; [|reflexivity].
  now rewrite filter_app.
Qed.

Lemma binding_child_value (node : template) (q q' : Params) (p : parser jsval)
  (i o : string) (r : jsval) :
  (forall variable input v rest,
      dateTimeParser variable input = Success v rest -> is_string v = false) ->
  is_text_chunk node = false ->
  parserOfTemplate node q = (inr p, q') ->
  p i = Success r o -> is_string r = false.
Proof.
  intros D T.
  destruct node as [value | variable value | cond | nodes | clause nodes | nodes
                   | ast_decl nodes | class]; try discriminate.
  - cbn [parserOfTemplate].
    destruct (String.eqb (type variable) "Enum").
    + intros [= <- _]. unfold enumParser, P.map.
      destruct (choiceStringsParser value i); [|discriminate]. now intros [= <- _].
    + unfold parsingTable.
      destruct (String.eqb (type variable) "Integer").
      { intros [= <- _]. unfold integerParser, P.map.
        destruct (P.regexp re_integer i); [|discriminate]. now intros [= <- _]. }
      destruct (String.eqb (type variable) "Double").
      { intros [= <- _]. unfold doubleParser, P.map.
        destruct (P.regexp re_double i); [|discriminate]. now intros [= <- _]. }
      destruct (String.eqb (type variable) "String").
      { intros [= <- _]. unfold stringParser, P.map.
        destruct (stringLiteralParser i); [|discriminate]. now intros [= <- _]. }
      destruct (String.eqb (type variable) "DateTime"); [|discriminate].
      intros [= <- _]. apply D.
  - cbn. intros [= <- _]. rewrite condParser_prefix.
    destruct (strip_prefix (whenTrue cond) i);
      [|destruct (strip_prefix (whenFalse cond) i)]; try discriminate;
      now intros [= <- _].
  - cbn [parserOfTemplate]. rewrite map_nodes_fix.
    destruct (map_nodes nodes q) as [[e|ps] q1]; discriminate.
  - rewrite parserOfTemplate_ClauseBlock.
    destruct (map_nodes nodes q) as [[e|ps] q1]; [discriminate|].
    destruct (contract q1); intros [= <- _].
    + unfold wrappedClauseParser, P.map.
      destruct (P.wrap (seqParser ps) clauseBefore clauseAfter i); [|discriminate].
      now intros [= <- _].
    + unfold clauseParser, P.map.
      destruct (seqParser ps i); [|discriminate]. now intros [= <- _].
  - cbn [parserOfTemplate]. rewrite map_nodes_fix.
    destruct (map_nodes nodes q) as [[e|ps] q1]; discriminate.
  - rewrite parserOfTemplate_ContractBlock.
    destruct (map_nodes nodes {| contract := true |}) as [[e|ps] q1];
      [discriminate|].
    intros [= <- _]. unfold contractParser, P.map.
    destruct (seqParser ps i); [|discriminate]. now intros [= <- _].
Qed.

(** X10.  The list a compiled sequence binds has exactly one record for
    each child that is not a text chunk, in the order of the children:
    nothing but the text chunks is dropped (the parser of DateTime
    variables being one that does not yield a string). *)
Theorem one_record_per_binding_child
  (nodes : list template) (params params' : Params) (ps : list (parser jsval))
  (input rest : string) (vs : list jsval) :
  (forall variable input v rest,
      dateTimeParser variable input = Success v rest -> is_string v = false) ->
  map_nodes nodes params = (inr ps, params') ->
  seqParser ps input = Success vs rest ->
  exists raw,
    P.seq ps input = Success raw rest
    /\ length raw = length nodes
    /\ vs = filter (fun x => negb (is_string x)) raw
    /\ length vs = length (filter (fun n => negb (is_text_chunk n)) nodes).
Proof.
  intros D M S. unfold seqParser, P.seqMap, P.map in S.
  destruct (P.seq ps input) as [raw r|] eqn:E; [|discriminate].
  injection S as <- <-. exists raw. split; [reflexivity|].
  assert (F : Forall2 (fun node r => is_string r = is_text_chunk node) nodes raw).
  { eapply Forall2_compose;
      [|eapply map_nodes_compiled; exact M | eapply seq_components; exact E].
    intros node p v (q & q' & C) (i & o & R).
    destruct (is_text_chunk node) eqn:T.
    - destruct node; try discriminate.
      now rewrite (text_chunk_value _ _ _ _ _ _ _ C R).
    - eapply binding_child_value; eauto. }
  split; [symmetry; eapply Forall2_length; exact F|].
  split; [reflexivity|].
  clear -F. induction F as [|node r nodes raw H _ IH]; [reflexivity|].
  cbn [filter]. rewrite H. destruct (is_text_chunk node); cbn [negb length];
    now rewrite IH.
Qed.

End CompilerProperties.

(** *** Compilations on concrete templates *)

Definition money : decl := {| name := "price"; type := "Money" |}.

Lemma compile_error_propagates_witness :
  @parserOfTemplate example_host example_dateTime
    (ContractBlock k1 [TextChunk "Pay "; ClauseBlock c1 [Variable_ money []]])
    {| contract := false |}
  = (inl (UnknownVariableType "Money"), {| contract := true |}).
Proof.
  apply (@compile_error_propagates example_host example_dateTime
           _ (Variable_ money []) _ {| contract := true |}); [|reflexivity].
  eapply calls_below with (before := [TextChunk "Pay "]) (after := []);
    [reflexivity | reflexivity |].
  eapply calls_below with (before := []) (after := []);
    [reflexivity | reflexivity |].
  apply calls_here.
Defined.

Lemma compiles_iff_compilable_witness :
  (exists p params',
      @parserOfTemplate example_host example_dateTime
        (ContractBlock k1 [TextChunk "Pay "; ClauseBlock c1 [Variable_ amount []]])
        {| contract := false |} = (inr p, params'))
  <-> compilable
        (ContractBlock k1 [TextChunk "Pay "; ClauseBlock c1 [Variable_ amount []]])
      = true.
Proof.
  exact (@compiles_iff_compilable example_host example_dateTime
           (ContractBlock k1 [TextChunk "Pay "; ClauseBlock c1 [Variable_ amount []]])
           {| contract := false |} eq_refl).
Defined.

Lemma flag_after_compilation_witness :
  contract {| contract := true |}
  = contract {| contract := false |}
    || negb (contract_free (ClauseBlock c1 [ContractBlock k1 [TextChunk "Pay "]])).
Proof.
  exact (@flag_after_compilation example_host example_dateTime
           (ClauseBlock c1 [ContractBlock k1 [TextChunk "Pay "]])
           {| contract := false |} {| contract := true |}
           (wrappedClauseParser c1
              (seqParser
                 [contractParser k1 (seqParser [P.map VStr (textParser "Pay ")])]))
           eq_refl).
Defined.

Lemma compiled_parser_consumes_prefix_witness :
  exists used, "42 units" = used ++ " units".
Proof.
  apply (@compiled_parser_consumes_prefix example_host example_dateTime
           (Variable_ {| name := "n"; type := "Integer" |} [])
           {| contract := false |} {| contract := false |}
           (integerParser {| name := "n"; type := "Integer" |})
           "42 units" " units"
           (mkVariable {| name := "n"; type := "Integer" |} (VNum "42"))).
  - intros variable input v rest. discriminate.
  - reflexivity.
  - reflexivity.
Defined.

Definition quantity : decl := {| name := "quantity"; type := "Integer" |}.

Lemma one_record_per_binding_child_witness :
  exists raw,
    P.seq [P.map VStr (textParser "Seller: "); stringParser seller;
           P.map VStr (textParser "."); integerParser quantity]
      ("Seller: " ++ DQ ++ "Steve" ++ DQ ++ ".7")
    = Success raw EmptyString
    /\ length raw = 4
    /\ [mkVariable seller (VStr "Steve"); mkVariable quantity (VNum "7")]
       = filter (fun x => negb (is_string x)) raw
    /\ 2 = 2.
Proof.
  refine (@one_record_per_binding_child example_host example_dateTime
            [TextChunk "Seller: "; Variable_ seller []; TextChunk ".";
             Variable_ quantity []]
            {| contract := false |} {| contract := false |}
            [P.map VStr (textParser "Seller: "); stringParser seller;
             P.map VStr (textParser "."); integerParser quantity]
            ("Seller: " ++ DQ ++ "Steve" ++ DQ ++ ".7") EmptyString
            [mkVariable seller (VStr "Steve"); mkVariable quantity (VNum "7")]
            _ eq_refl eq_refl).
  intros variable input v rest. discriminate.
Defined.

(** ** The visitor: marks, outputs and exceptions *)
Section VisitorOutputs.
Import ToPdfMakeVisitor.
Context {host : Host}.

(** X11.  A Text leaf is emitted with its text, with italics exactly when
    the emph mark is on and with bold exactly when the strong mark is on;
    its style is Code when the code mark is on, else Strong when strong
    is on, else Emph when emph is on, and it has no style at all when no
    mark is on. *)
Theorem text_leaf_marks (a : attrs) (ns : list node) (parameters : Parameters) :
  exists leaf,
    visit (Node "Text" a ns) parameters = inr (set_result parameters leaf)
    /\ get "text" leaf = js (text a)
    /\ get "italics" leaf = (if emph parameters then VBool true else VUndef)
    /\ get "bold" leaf = (if strong parameters then VBool true else VUndef)
    /\ get "style" leaf
       = (if code parameters then VStr "Code"
          else if strong parameters then VStr "Strong"
          else if emph parameters then VStr "Emph"
          else VUndef)
    /\ has_field "italics" leaf = emph parameters
    /\ has_field "bold" leaf = strong parameters.
Proof.
  eexists. split; [apply visit_Text|].
  unfold handleFormattedText, applyMarks. cbn [getText String.eqb Ascii.eqb Bool.eqb].
  destruct parameters as [s e c r]. cbn [strong emph code].
  destruct s, e, c; repeat split; reflexivity.
Qed.

(** The parameters with which a node of type [t] processes its
    children. *)
Definition descend (t : string) (p : Parameters) : Parameters :=
  match switch t with
  | CaseEmph => set_emph p
  | CaseStrong => set_strong p
  | _ => p
  end.

(** [reaches root p n q]: the call [visit(root, p)] leads to the call
    [visit(n, q)], the children before [n] on the way having been
    processed. *)
Inductive reaches : node -> Parameters -> node -> Parameters -> Prop :=
| reaches_here (n : node) (p : Parameters) : reaches n p n p
| reaches_below (t : string) (a : attrs) (before after : list node)
    (child : node) (p : Parameters) (r : list jsval) (n : node) (q : Parameters) :
    recurses t = true ->
    processChildren before (descend t p) = inr r ->
    reaches child (newParameters (descend t p)) n q ->
    reaches (Node t a (before ++ child :: after)) p n q.

Lemma visit_recursing (t : string) (a : attrs) (ns : list node)
  (p : Parameters) (e : error) :
  recurses t = true ->
  processChildren ns (descend t p) = inl e ->
  visit (Node t a ns) p = inl e.
Proof.
  unfold recurses, descend. intros R H. cbn [visit]. rewrite !each_processChildren.
  destruct (switch t); try discriminate; now rewrite H.
Qed.

(** X12.  An exception raised by the visit of a node is the exception of
    the whole traversal that got to it: every node above passes it on
    unchanged, and no output is built. *)
Theorem visit_error_propagates (root n : node) (p q : Parameters) (e : error) :
  reaches root p n q ->
  visit n q = inl e ->
  visit root p = inl e.
Proof.
  induction 1 as [n p | t a before after child p r n q R B _ IH]; intros E;
    [exact E|].
  apply visit_recursing; [exact R|].
  rewrite processChildren_app, B. cbn [processChildren]. now rewrite (IH E).
Qed.



(** *** One output per child *)

Definition is_object (x : jsval) : Prop := exists fs, x = VObj fs.

Lemma visit_result_object (thing : node) (p q : Parameters) :
  visit thing p = inr q -> is_object (result q).
Proof.
  destruct thing as [t a ns]. cbn [visit]. rewrite !each_processChildren.
  unfold handleFormattedText.
  destruct (switch t);
    repeat match goal with
      | |- context [processChildren ns ?p'] => destruct (processChildren ns p')
      | |- context [match ?l with [] => _ | _ :: _ => _ end] => destruct l
      | |- context [if ?b then _ else _] => destruct b
      | |- context [match value a with Some _ => _ | None => _ end] =>
          destruct (value a)
      end;
    try discriminate; intros [= <-]; cbn [result set_result]; eexists; reflexivity.
Qed.

Lemma processChildren_objects (ns : list node) (p : Parameters) (r : list jsval) :
  processChildren ns p = inr r ->
  length r = length ns /\ Forall is_object r.
Proof.
  revert r; induction ns as [|child ns IH]; intros r; cbn [processChildren].
  - intros [= <-]. split; [reflexivity | constructor].
  - destruct (visit child (newParameters p)) as [e|q] eqn:V; [discriminate|].
    destruct (processChildren ns p) as [e|r'] eqn:R; [discriminate|].
    intros [= <-]. destruct (IH r' eq_refl) as [L F].
    apply visit_result_object in V as [fs E]. rewrite E. cbn [pushed app length].
    split; [now rewrite L | constructor; [now exists fs | exact F]].
Qed.

(** X14.  Each child of a node contributes exactly one element to the
    list its parent collects, in the order of the children: the element
    is the result of the visit of that child with fresh parameters, and
    it is an object, so that the branch of [processChildren] that splices
    an array result never runs. *)
Theorem one_output_per_child (ns : list node) (p : Parameters) (r : list jsval) :
  processChildren ns p = inr r ->
  Forall2 (fun child x =>
             exists q, visit child (newParameters p) = inr q /\ x = result q)
          ns r
  /\ length r = length ns
  /\ Forall is_object r.
Proof.
  intros R. split; [|exact (processChildren_objects ns p r R)].
  revert r R; induction ns as [|child ns IH]; intros r; cbn [processChildren].
  - intros [= <-]. constructor.
  - destruct (visit child (newParameters p)) as [e|q] eqn:V; [discriminate|].
    destruct (processChildren ns p) as [e|r'] eqn:R; [discriminate|].
    intros [= <-]. pose proof (IH r' eq_refl) as F.
    destruct (visit_result_object _ _ _ V) as [fs E].
    rewrite E. cbn [pushed app].
    constructor; [exists q; split; [exact V | now rewrite E] | exact F].
Qed.

(** *** The trees the visitor accepts *)

Definition unquotes (a : attrs) : bool :=
  is_str "String" (js (elementType a)) || truthy (js (identifiedBy a)).

Definition has_child (ns : list node) : bool :=
  match ns with [] => false | _ :: _ => true end.

(** The trees on which [visit] returns: every node that is visited has a
    rule; a Heading, a Link and a Conditional have a child; a variable
    that is unquoted has a value. *)
Fixpoint visitable (thing : node) : bool :=
  match thing with
  | Node t a ns =>
      match switch t with
      | CaseEmph | CaseStrong | CaseBlock | CaseParagraph | CaseList
      | CaseDocument => forallb visitable ns
      | CaseHeading => forallb visitable ns && has_child ns
      | CaseLink | CaseConditional => has_child ns
      | CaseVariable =>
          if unquotes a then match value a with Some _ => true | None => false end
          else true
      | CaseImage | CaseRaw | CaseText | CaseThematicBreak | CaseLinebreak
      | CaseSoftbreak => true
      | CaseDefault => false
      end
  end.

Definition returns (thing : node) : Prop :=
  forall p, (exists q, visit thing p = inr q) <-> visitable thing = true.

Lemma processChildren_returns (ns : list node) :
  Forall returns ns ->
  forall p, (exists r, processChildren ns p = inr r) <-> forallb visitable ns = true.
Proof.
  induction 1 as [|child ns Hc _ IH]; intros p; cbn [processChildren forallb].
  - split; eauto.
  - specialize (Hc (newParameters p)). specialize (IH p).
    destruct (visit child (newParameters p)) as [e|q].
    + split; [intros (r & [=])|]. intros A.
      apply andb_true_iff in A as [A _]. apply Hc in A as (q & [=]).
    + assert (C : visitable child = true) by (apply Hc; eauto).
      rewrite C. cbn [andb]. rewrite <- IH.
      destruct (processChildren ns p) as [e|r]; split;
        try (intros (r' & [=])); eauto.
Qed.

(** X15.  A traversal returns an output exactly on the trees in which
    every visited node has a rule, every Heading, Link and Conditional has
    at least one child, and every variable whose value is unquoted has a
    value; on every other tree it ends in an exception.  The parameters
    play no part in this. *)
Theorem visit_returns_iff_visitable (thing : node) (p : Parameters) :
  (exists q, visit thing p = inr q) <-> visitable thing = true.
Proof.
  revert p. change (returns thing).
  induction thing as [t a ns IH] using node_rect_children. intros p.
  pose proof (processChildren_returns ns IH) as PC.
  cbn [visit visitable]. rewrite !each_processChildren.
  assert (REC : forall (p' : Parameters) (k : list jsval -> error + Parameters),
             (forall r, exists q, k r = inr q) ->
             (exists q, match processChildren ns p' with
                        | inl e => inl e
                        | inr r => k r
                        end = inr q)
             <-> forallb visitable ns = true).
  { intros p' k K. rewrite <- (PC p').
    destruct (processChildren ns p') as [e|r].
    - split; [intros (q & Hq) | intros (r & Hr)]; discriminate.
    - split; intros _; [eauto | apply K]. }
  destruct (switch t).
  - (* Emph *) apply REC. eauto.
  - (* Strong *) apply REC. eauto.
  - (* BlockQuote, Item, Clause *) apply REC. eauto.
  - (* Link *)
    destruct ns; cbn [has_child]; split; eauto; try discriminate.
    intros (q & [=]).
  - (* Image *) split; eauto.
  - (* Paragraph *)
    apply REC. intros r.
    destruct (match r with
              | c0 :: _ => truthy c0 && is_str "Image" (get "style" c0)
              | [] => false
              end); eauto.
  - (* variables *)
    fold (unquotes a). destruct (unquotes a); [|split; eauto].
    destruct (value a); split; eauto; try discriminate. intros (q & [=]).
  - (* Conditional *)
    destruct ns; cbn [has_child]; split; eauto; try discriminate.
    intros (q & [=]).
  - (* code and html *) split; eauto.
  - (* Text *) split; eauto.
  - (* Heading *)
    destruct (processChildren ns p) as [e|r] eqn:R.
    + split; [intros (q & [=])|].
      intros A. apply andb_true_iff in A as [A _].
      apply (PC p) in A as (r' & Hr). congruence.
    + assert (F : forallb visitable ns = true) by (apply (PC p); eauto).
      rewrite F. cbn [andb].
      apply processChildren_objects in R as [L _].
      destruct r as [|c0 r]; destruct ns as [|child ns]; try discriminate;
        cbn [has_child]; split; eauto; try discriminate.
      intros (q & [=]).
  - (* ThematicBreak *) split; eauto.
  - (* Linebreak *) split; eauto.
  - (* Softbreak *) split; eauto.
  - (* ListBlock, List *) apply REC. eauto.
  - (* Document *) apply REC. eauto.
  - (* no rule *) split; [intros (q & [=]) | discriminate].
Qed.

(** *** Paragraphs and headings *)

Lemma style_field (k : string) (v : jsval) (t : string) :
  String.eqb k "style" = false ->
  fields_get "style" (fields_set k v [("style", VStr t)]) = VStr t.
Proof. intros N. rewrite fields_get_set, N. reflexivity. Qed.

(** The style of an output is Image only for an Image node. *)
Lemma visit_style_image (thing : node) (p q : Parameters) :
  visit thing p = inr q ->
  is_str "Image" (get "style" (result q)) = String.eqb (getType thing) "Image".
Proof.
  destruct thing as [t a ns]. cbn [visit getType]. rewrite !each_processChildren.
  destruct (switch t) eqn:S;
    repeat match goal with
      | |- context [processChildren ns ?p'] => destruct (processChildren ns p')
      | |- context [match ?l with [] => _ | _ :: _ => _ end] => destruct l
      | |- context [if ?b then _ else _] => destruct b
      | |- context [match value a with Some _ => _ | None => _ end] =>
          destruct (value a)
      end;
    try discriminate; intros [= <-]; cbn [result set_result get];
    rewrite ?fields_get_set; try reflexivity.
  - (* Text *)
    assert (N : String.eqb t "Image" = false).
    { destruct (String.eqb t "Image") eqn:E; [|reflexivity].
      apply String.eqb_eq in E. subst t. discriminate. }
    rewrite N. unfold handleFormattedText, applyMarks.
    destruct (emph p), (strong p), (code p); reflexivity.
  - (* Heading *)
    assert (N : String.eqb t "Image" = false).
    { destruct (String.eqb t "Image") eqn:E; [|reflexivity].
      apply String.eqb_eq in E. subst t. discriminate. }
    rewrite N. cbn. unfold getHeadingType. cbn [props level].
    destruct (level a) as [lv|]; [|reflexivity].
    repeat (match goal with
            | |- context [String.eqb lv ?k] => destruct (String.eqb lv k)
            end; [reflexivity|]).
    reflexivity.
Qed.

(** X16.  A Paragraph whose first child is an Image node is emitted as a
    stack of its children's outputs, without text and margin; every other
    Paragraph, the empty one included, is emitted as a text run of its
    children's outputs with the margin 0, 5.  Only the first child
    decides. *)
Theorem paragraph_stack_iff_image_first
  (a : attrs) (ns : list node) (p : Parameters) (r : list jsval) :
  processChildren ns p = inr r ->
  visit (Node "Paragraph" a ns) p
  = inr (set_result p
           (VObj (if match ns with
                     | first :: _ => String.eqb (getType first) "Image"
                     | [] => false
                     end
                  then [("style", VStr "Paragraph"); ("stack", VArr r)]
                  else [("style", VStr "Paragraph"); ("text", VArr r);
                        ("margin", VArr [VNum "0"; VNum "5"])]))).
Proof.
  intros R. cbn [visit]. rewrite !each_processChildren.
  change (switch "Paragraph") with CaseParagraph. cbv iota. rewrite R.
  destruct ns as [|first rest].
  - cbn [processChildren] in R. injection R as <-. reflexivity.
  - cbn [processChildren] in R.
    destruct (visit first (newParameters p)) as [e|q0] eqn:V; [discriminate|].
    destruct (processChildren rest p) as [e|r'] eqn:R'; [discriminate|].
    injection R as <-.
    pose proof (visit_style_image _ _ _ V) as I.
    destruct (visit_result_object _ _ _ V) as [fs E]. rewrite E in *.
    cbn [pushed app truthy andb]. rewrite I.
    destruct (String.eqb (getType first) "Image"); reflexivity.
Qed.

Lemma ToString_objects (l : list jsval) :
  Forall is_object l ->
  ToString (VArr l) = join "," (repeat "[object Object]" (length l)).
Proof.
  cbn [ToString]. induction 1 as [|x l [fs ->] _ IH]; [reflexivity|].
  cbn [List.map length repeat join]. cbn [List.map] in IH. rewrite IH.
  destruct l; reflexivity.
Qed.

Lemma visit_Heading (a : attrs) (ns : list node) (p : Parameters) :
  visit (Node "Heading" a ns) p
  = match processChildren ns p with
    | inl e => inl e
    | inr [] => inl TypeError
    | inr (c0 :: _) =>
        inr (set_result p
               (VObj [("style", VStr (getHeadingType (Node "Heading" a ns)));
                      ("text", VStr (NL ++ ToString (get "text" c0) ++ NL));
                      ("tocItem", VBool true)]))
    end.
Proof.
  cbn [visit]. rewrite !each_processChildren.
  change (switch "Heading") with CaseHeading. cbv iota.
  destruct (processChildren ns p) as [e|[|c0 r]]; reflexivity.
Qed.

(** X17.  The text of a Heading is the text property of the output of its
    first child between two newlines.  When the first child is a Text
    leaf this is the text of the leaf; when it is an Emph or a Strong
    node the property is the list of that node's outputs, and the text of
    the Heading is one [[object Object]] per child of it, separated by
    commas: the emphasised words are not in it.  The other children of
    the Heading are visited and leave nothing in the output. *)
Theorem heading_text_of_first_child
  (a a1 : attrs) (t1 : string) (ns1 rest : list node) (p q1 : Parameters)
  (r : list jsval) :
  visit (Node t1 a1 ns1) (newParameters p) = inr q1 ->
  processChildren rest p = inr r ->
  let heading := Node "Heading" a (Node t1 a1 ns1 :: rest) in
  visit heading p
  = inr (set_result p
           (VObj [("style", VStr (getHeadingType heading));
                  ("text", VStr (NL ++ ToString (get "text" (result q1)) ++ NL));
                  ("tocItem", VBool true)]))
  /\ (t1 = "Text" -> ToString (get "text" (result q1)) = ToString (js (text a1)))
  /\ (t1 = "Emph" \/ t1 = "Strong" ->
      ToString (get "text" (result q1))
      = join "," (repeat "[object Object]" (length ns1))).
Proof.
  intros V R heading. split; [|split].
  - unfold heading. rewrite visit_Heading.
    cbn [processChildren]. rewrite V, R.
    destruct (visit_result_object _ _ _ V) as [fs E]. rewrite E.
    reflexivity.
  - intros ->. rewrite visit_Text in V. injection V as <-.
    unfold handleFormattedText, applyMarks.
    cbn [set_result result getText String.eqb Ascii.eqb Bool.eqb newParameters
         emph strong code].
    destruct (emph p), (strong p), (code p); reflexivity.
  - intros M. revert V. cbn [visit]. rewrite !each_processChildren.
    destruct M as [-> | ->].
    + change (switch "Emph") with CaseEmph. cbv iota.
      destruct (processChildren ns1 (set_emph (newParameters p))) as [e|c] eqn:C;
        [discriminate|].
      intros [= <-]. apply processChildren_objects in C as [L F].
      cbn [result set_result get fields_set fields_get String.eqb Ascii.eqb
           Bool.eqb].
      now rewrite (ToString_objects c F), L.
    + change (switch "Strong") with CaseStrong. cbv iota.
      destruct (processChildren ns1 (set_strong (newParameters p))) as [e|c] eqn:C;
        [discriminate|].
      intros [= <-]. apply processChildren_objects in C as [L F].
      cbn [result set_result get fields_set fields_get String.eqb Ascii.eqb
           Bool.eqb].
      now rewrite (ToString_objects c F), L.
Qed.

End VisitorOutputs.

(** *** Outputs on concrete trees *)
Section VisitorOutputExamples.
Import ToPdfMakeVisitor.

Definition footnote : node := Node "Footnote" plain [].

Lemma visit_error_propagates_witness :
  @visit example_host
    (Node "Document" plain [Node "Paragraph" plain [text_leaf "a"; footnote]])
    start
  = inl (UnhandledType "Footnote").
Proof.
  apply (@visit_error_propagates example_host _ footnote start
           (newParameters (newParameters start))); [|reflexivity].
  eapply reaches_below with (before := []) (after := []);
    [reflexivity | reflexivity |].
  eapply reaches_below with (before := [text_leaf "a"]) (after := []);
    [reflexivity | reflexivity |].
  apply reaches_here.
Defined.



Lemma one_output_per_child_witness :
  length [VObj [("text", VStr "a")];
          VObj [("style", VStr "Softbreak"); ("text", VStr " ")];
          VObj [("text", VStr "b")]] = 3
  /\ Forall is_object
       [VObj [("text", VStr "a")];
        VObj [("style", VStr "Softbreak"); ("text", VStr " ")];
        VObj [("text", VStr "b")]].
Proof.
  exact (proj2 (@one_output_per_child example_host
                  [text_leaf "a"; Node "Softbreak" plain []; text_leaf "b"] start _
                  eq_refl)).
Defined.

Definition picture : node :=
  Node "Image"
    {| text := None; destination := Some "logo.png"; level := None; type := None;
       elementType := None; identifiedBy := None; value := None |} [].

Lemma paragraph_stack_iff_image_first_witness :
  @visit example_host (Node "Paragraph" plain [picture; text_leaf "a"]) start
  = inr (set_result start
           (VObj [("style", VStr "Paragraph");
                  ("stack",
                   VArr [VObj [("style", VStr "Image"); ("image", VStr "logo.png")];
                         VObj [("text", VStr "a")]])])).
Proof.
  exact (@paragraph_stack_iff_image_first example_host plain
           [picture; text_leaf "a"] start _ eq_refl).
Defined.

Lemma heading_text_of_first_child_witness :
  @visit example_host
    (Node "Heading" plain [Node "Emph" plain [text_leaf "Terms"; text_leaf "!"]])
    start
  = inr (set_result start
           (VObj [("style", VStr "heading_one");
                  ("text", VStr (NL ++ "[object Object],[object Object]" ++ NL));
                  ("tocItem", VBool true)])).
Proof.
  exact (proj1 (@heading_text_of_first_child example_host plain plain "Emph"
                  [text_leaf "Terms"; text_leaf "!"] [] start _ [] eq_refl eq_refl)).
Defined.

End VisitorOutputExamples.

(** * The normalisation of new lines

    [normalizeNLs] of the markdown normaliser: [input.replace(/\r/gm, '')],
    the global replacement of every carriage return by nothing. *)

Definition carriage_return : ascii := "013"%char.
Definition CR : string := String carriage_return EmptyString.

Fixpoint normalizeNLs (input : string) : string :=
  match input with
  | EmptyString => EmptyString
  | String c rest =>
      if Ascii.eqb c carriage_return then normalizeNLs rest
      else String c (normalizeNLs rest)
  end.

Fixpoint occurs (c : ascii) (s : string) : bool :=
  match s with
  | EmptyString => false
  | String a rest => Ascii.eqb a c || occurs c rest
  end.

Lemma normalizeNLs_app (a b : string) :
  normalizeNLs (a ++ b) = normalizeNLs a ++ normalizeNLs b.
Proof.
  induction a as [|c a IH]; [reflexivity|]. cbn [append normalizeNLs].
  destruct (Ascii.eqb c carriage_return); [exact IH|].
  cbn [append]. now rewrite IH.
Qed.

Lemma normalizeNLs_clean (s : string) :
  occurs carriage_return s = false -> normalizeNLs s = s.
Proof.
  induction s as [|c s IH]; [reflexivity|]. cbn [occurs normalizeNLs].
  destruct (Ascii.eqb c carriage_return); [discriminate|].
  cbn [orb]. intros H. now rewrite IH.
Qed.

Lemma normalizeNLs_no_return (s : string) :
  occurs carriage_return (normalizeNLs s) = false.
Proof.
  induction s as [|c s IH]; [reflexivity|]. cbn [normalizeNLs].
  destruct (Ascii.eqb c carriage_return) eqn:E; [exact IH|].
  cbn [occurs]. now rewrite E, IH.
Qed.

(** X18.  [normalizeNLs] leaves no carriage return in a text and changes
    nothing else: it is the identity on a text without carriage returns,
    it is idempotent, it works piece by piece on a concatenation, and a
    carriage return between two texts is dropped without a line feed
    taking its place (a line feed itself is kept). *)
Theorem normalizeNLs_removes_returns (a b : string) :
  occurs carriage_return (normalizeNLs a) = false
  /\ normalizeNLs (normalizeNLs a) = normalizeNLs a
  /\ (occurs carriage_return a = false -> normalizeNLs a = a)
  /\ normalizeNLs (a ++ b) = normalizeNLs a ++ normalizeNLs b
  /\ normalizeNLs (a ++ CR ++ b) = normalizeNLs a ++ normalizeNLs b
  /\ normalizeNLs (a ++ CR ++ NL ++ b) = normalizeNLs a ++ NL ++ normalizeNLs b.
Proof.
  split; [apply normalizeNLs_no_return|].
  split; [apply normalizeNLs_clean, normalizeNLs_no_return|].
  split; [apply normalizeNLs_clean|].
  split; [apply normalizeNLs_app|].
  split; rewrite !normalizeNLs_app; reflexivity.
Qed.

(** * The OOXML transformer

    [deserializeElement], [deserializeElements], [getId] and [getValue] of
    the class [OoxmlTransformer], over the element trees that [xml-js]
    builds: an element has a [name] (a text node has none), [attributes],
    child [elements] and a [text], each of which may be absent.  A read of
    a property of [undefined] and an iteration over [undefined] are
    TypeErrors. *)
Module OoxmlTransformer.

Inductive element : Type :=
| Element (name : option string) (attributes : option (list (string * string)))
    (elements : option (list element)) (text : option string).

Definition name (e : element) : option string :=
  match e with Element n _ _ _ => n end.
Definition attributes (e : element) : option (list (string * string)) :=
  match e with Element _ a _ _ => a end.
Definition elements (e : element) : option (list element) :=
  match e with Element _ _ els _ => els end.
Definition text (e : element) : option string :=
  match e with Element _ _ _ t => t end.

Inductive exn : Type := TypeError.

(** [e.name === k] *)
Definition named (k : string) (e : element) : bool :=
  match name e with Some n => String.eqb n k | None => false end.

(** [attributes[k]] *)
Fixpoint attribute (k : string) (attrs : list (string * string)) : jsval :=
  match attrs with
  | [] => VUndef
  | (k', v) :: rest => if String.eqb k' k then VStr v else attribute k rest
  end.

Definition js (o : option string) : jsval :=
  match o with Some s => VStr s | None => VUndef end.

(** [getId(elements)]: the [w:val] of the first [w:tag] among the children
    of the first element. *)
Definition getId (elements : option (list element)) : exn + jsval :=
  match elements with
  | Some (variableProperties :: _) =>
      match OoxmlTransformer.elements variableProperties with
      | Some properties =>
          (fix each (properties : list element) : exn + jsval :=
             match properties with
             | [] => inr VUndef
             | property :: rest =>
                 if named "w:tag" property
                 then match attributes property with
                      | Some attrs => inr (attribute "w:val" attrs)
                      | None => inl TypeError
                      end
                 else each rest
             end) properties
      | None => inl TypeError
      end
  | _ => inl TypeError
  end.

(** [getValue(elements)]: the text of the first child of the first [w:t]
    among the children of the first child of the second element. *)
Definition getValue (elements : option (list element)) : exn + jsval :=
  match elements with
  | Some (_ :: variableContents :: _) =>
      match OoxmlTransformer.elements variableContents with
      | Some (first :: _) =>
          match OoxmlTransformer.elements first with
          | Some properties =>
              (fix each (properties : list element) : exn + jsval :=
                 match properties with
                 | [] => inr VUndef
                 | property :: rest =>
                     if named "w:t" property
                     then match OoxmlTransformer.elements property with
                          | Some (x :: _) => inr (js (text x))
                          | _ => inl TypeError
                          end
                     else each rest
                 end) properties
          | None => inl TypeError
          end
      | _ => inl TypeError
      end
  | _ => inl TypeError
  end.

(** What [deserializeElements] does with the value of one element, by its
    [typeOf]: an array is spliced in, an object is appended, anything else
    is dropped. *)
Definition collect (node : jsval) (nodes : list jsval) : list jsval :=
  match node with
  | VArr xs => (xs ++ nodes)%list
  | VObj _ => node :: nodes
  | _ => nodes
  end.

Section Deserialize.
(** The prefix of the class names, from the CommonMark model. *)
Variable NS_PREFIX_CommonMarkModel : string.

Definition class (c : string) : string * jsval :=
  ("$class", VStr (NS_PREFIX_CommonMarkModel ++ c)).

Fixpoint deserializeElement (element : element) : exn + jsval :=
  match element with
  | Element _ attrs els _ =>
      let deserializeElements :=
        match els with
        | None => inl TypeError
        | Some l =>
            (fix each (l : list OoxmlTransformer.element) : exn + list jsval :=
               match l with
               | [] => inr []
               | e :: rest =>
                   if named "w:pPr" e then each rest
                   else match deserializeElement e with
                        | inl x => inl x
                        | inr node =>
                            match each rest with
                            | inl x => inl x
                            | inr nodes => inr (collect node nodes)
                            end
                        end
               end) l
        end in
      if named "w:p" element then
        match deserializeElements with
        | inl x => inl x
        | inr nodes => inr (VObj [class "Paragraph"; ("nodes", VArr nodes)])
        end
      else if named "w:sdt" element then
        match getId els with
        | inl x => inl x
        | inr id =>
            match getValue els with
            | inl x => inl x
            | inr value => inr (VObj [class "Variable"; ("id", id); ("value", value)])
            end
        end
      else if named "w:r" element then
        match deserializeElements with
        | inl x => inl x
        | inr nodes => inr (VArr nodes)
        end
      else if named "w:color" element then
        match attrs with
        | Some attrs => inr (attribute "w:color" attrs)
        | None => inl TypeError
        end
      else if named "w:t" element then
        match els with
        | None =>
            match attrs with
            | None => inl TypeError
            | Some attrs =>
                match attribute "xml:space" attrs with
                | VStr space =>
                    if String.eqb space "preserve"
                    then inr (VObj [class "Softbreak"])
                    else inl TypeError
                | _ => inl TypeError
                end
            end
        | Some [] => inl TypeError
        | Some (x :: _) => inr (VObj [class "Text"; ("text", js (text x))])
        end
      else
        match deserializeElements with
        | inl x => inl x
        | inr nodes => inr (VArr nodes)
        end
  end.

(** The loop of [deserializeElements], on an array. *)
Fixpoint each_element (l : list element) : exn + list jsval :=
  match l with
  | [] => inr []
  | e :: rest =>
      if named "w:pPr" e then each_element rest
      else match deserializeElement e with
           | inl x => inl x
           | inr node =>
               match each_element rest with
               | inl x => inl x
               | inr nodes => inr (collect node nodes)
               end
           end
  end.

Definition deserializeElements (elements : option (list element))
  : exn + list jsval :=
  match elements with
  | None => inl TypeError
  | Some l => each_element l
  end.

End Deserialize.

End OoxmlTransformer.

(** ** Properties of the OOXML transformer *)
Section OoxmlProperties.
Import OoxmlTransformer.
Variable NS : string.

Lemma element_rect_children (Q : element -> Prop) :
  (forall n a els t,
      match els with Some l => Forall Q l | None => True end ->
      Q (Element n a els t)) ->
  forall e, Q e.
Proof.
  intros step. fix IH 1. intros [n a els t]. apply step.
  destruct els as [l|]; [|exact I].
  induction l as [|x l IHl]; constructor; [apply IH | exact IHl].
Qed.

(** The loop inside [deserializeElement] is [each_element]. *)
Lemma each_fix (l : list element) :
  (fix each (l : list element) : exn + list jsval :=
     match l with
     | [] => inr []
     | e :: rest =>
         if named "w:pPr" e then each rest
         else match deserializeElement NS e with
              | inl x => inl x
              | inr node =>
                  match each rest with
                  | inl x => inl x
                  | inr nodes => inr (collect node nodes)
                  end
              end
     end) l = each_element NS l.
Proof.
  induction l as [|e l IH]; [reflexivity|]. cbn [each_element].
  rewrite <- IH. reflexivity.
Qed.

Lemma deserializeElement_children (els : option (list element)) :
  match els with
  | None => inl TypeError
  | Some l =>
      (fix each (l : list element) : exn + list jsval :=
         match l with
         | [] => inr []
         | e :: rest =>
             if named "w:pPr" e then each rest
             else match deserializeElement NS e with
                  | inl x => inl x
                  | inr node =>
                      match each rest with
                      | inl x => inl x
                      | inr nodes => inr (collect node nodes)
                      end
                  end
         end) l
  end = deserializeElements NS els.
Proof. destruct els as [l|]; [apply each_fix | reflexivity]. Qed.

Lemma collect_app (node : jsval) (a b : list jsval) :
  collect node (a ++ b) = (collect node a ++ b)%list.
Proof. destruct node; cbn [collect]; auto using app_assoc. Qed.

(** X19.  The nodes of a list of elements are the nodes of its parts, in
    order: the transformation of a concatenation is the concatenation of
    the transformations, the first exception being the exception of the
    whole; and a [w:pPr] element is passed over whatever it holds. *)
Theorem each_element_app (l1 l2 : list element) :
  each_element NS (l1 ++ l2)
  = match each_element NS l1 with
    | inl x => inl x
    | inr a =>
        match each_element NS l2 with
        | inl x => inl x
        | inr b => inr (a ++ b)%list
        end
    end
  /\ (forall e, named "w:pPr" e = true ->
                each_element NS (l1 ++ e :: l2) = each_element NS (l1 ++ l2)).
Proof.
  assert (A : forall l1 l2,
             each_element NS (l1 ++ l2)
             = match each_element NS l1 with
               | inl x => inl x
               | inr a =>
                   match each_element NS l2 with
                   | inl x => inl x
                   | inr b => inr (a ++ b)%list
                   end
               end).
  { clear. intros l1 l2. induction l1 as [|e l1 IH]; cbn [app each_element].
    - destruct (each_element NS l2); reflexivity.
    - destruct (named "w:pPr" e); [exact IH|].
      destruct (deserializeElement NS e) as [x|node]; [reflexivity|].
      rewrite IH. destruct (each_element NS l1) as [x|a]; [reflexivity|].
      destruct (each_element NS l2) as [x|b]; [reflexivity|].
      now rewrite collect_app. }
  split; [apply A|].
  intros e P. rewrite !A. cbn [each_element]. now rewrite P.
Qed.

(** The elements that only wrap their children. *)
Definition transparent (e : element) : bool :=
  negb (named "w:p" e || named "w:sdt" e || named "w:color" e
        || named "w:t" e || named "w:pPr" e).

(** X20.  An element that is not a paragraph, a variable, a colour, a text
    or paragraph properties (a run [w:r], for one) is transparent: its
    place in the list of nodes is taken by the nodes of its children. *)
Theorem wrapper_is_transparent (e : element) (rest : list element) :
  transparent e = true ->
  each_element NS (e :: rest)
  = match deserializeElements NS (elements e) with
    | inl x => inl x
    | inr a =>
        match each_element NS rest with
        | inl x => inl x
        | inr b => inr (a ++ b)%list
        end
    end.
Proof.
  unfold transparent. intros T. apply negb_true_iff in T.
  repeat (apply orb_false_iff in T as [T ?]).
  cbn [each_element]. rewrite H.
  destruct e as [n a els t]. cbn [deserializeElement elements].
  rewrite deserializeElement_children, T, H2, H1, H0.
  destruct (named "w:r" (Element n a els t));
    destruct (deserializeElements NS els) as [x|nodes]; try reflexivity;
    destruct (each_element NS rest); reflexivity.
Qed.

(** The nodes the transformer builds. *)
Inductive built : jsval -> Prop :=
| built_paragraph (nodes : list jsval) :
    Forall built nodes ->
    built (VObj [class NS "Paragraph"; ("nodes", VArr nodes)])
| built_variable (id value : jsval) :
    built (VObj [class NS "Variable"; ("id", id); ("value", value)])
| built_softbreak : built (VObj [class NS "Softbreak"])
| built_text (t : jsval) : built (VObj [class NS "Text"; ("text", t)]).

Definition built_value (v : jsval) : Prop :=
  match v with
  | VArr xs => Forall built xs
  | VObj _ => built v
  | _ => True
  end.

Lemma each_element_built (l : list element) :
  Forall (fun e => forall v, deserializeElement NS e = inr v -> built_value v) l ->
  forall nodes, each_element NS l = inr nodes -> Forall built nodes.
Proof.
  induction 1 as [|e l He _ IH]; intros nodes; cbn [each_element].
  - intros [= <-]. constructor.
  - destruct (named "w:pPr" e); [apply IH|].
    destruct (deserializeElement NS e) as [x|node] eqn:D; [discriminate|].
    destruct (each_element NS l) as [x|ns] eqn:E; [discriminate|].
    intros [= <-]. specialize (He _ eq_refl). specialize (IH _ eq_refl).
    destruct node; cbn [collect built_value] in *; auto.
    apply Forall_app. auto.
Qed.

Lemma deserializeElement_built (e : element) :
  forall v, deserializeElement NS e = inr v -> built_value v.
Proof.
  induction e as [n a els t IH] using element_rect_children. intros v.
  cbn [deserializeElement]. rewrite deserializeElement_children.
  assert (C : forall nodes, deserializeElements NS els = inr nodes ->
                            Forall built nodes).
  { destruct els as [l|]; [|discriminate]. now apply each_element_built. }
  destruct (named "w:p" (Element n a els t)).
  { destruct (deserializeElements NS els) as [x|nodes]; [discriminate|].
    intros [= <-]. constructor. auto. }
  destruct (named "w:sdt" (Element n a els t)).
  { destruct (getId els); [discriminate|].
    destruct (getValue els); [discriminate|]. intros [= <-]. constructor. }
  destruct (named "w:r" (Element n a els t)).
  { destruct (deserializeElements NS els) as [x|nodes]; [discriminate|].
    intros [= <-]. cbn. auto. }
  destruct (named "w:color" (Element n a els t)).
  { destruct a as [attrs|]; [|discriminate]. intros [= <-].
    induction attrs as [|[k w] attrs IHa]; cbn [attribute]; [exact I|].
    destruct (String.eqb k "w:color"); [exact I | exact IHa]. }
  destruct (named "w:t" (Element n a els t)).
  { destruct els as [[|x l]|].
    - discriminate.
    - intros [= <-]. constructor.
    - destruct a as [attrs|]; [|discriminate].
      destruct (attribute "xml:space" attrs); try discriminate.
      destruct (String.eqb s "preserve"); [|discriminate].
      intros [= <-]. constructor. }
  destruct (deserializeElements NS els) as [x|nodes]; [discriminate|].
  intros [= <-]. cbn. auto.
Qed.

(** X21.  Whatever the elements are, the nodes that [deserializeElements]
    returns are Paragraph nodes whose own nodes are of this kind, Variable
    nodes, Softbreak nodes and Text nodes, and nothing else: the value of
    a colour and every other string or undefined value is dropped. *)
Theorem deserializeElements_built (els : option (list element))
  (nodes : list jsval) :
  deserializeElements NS els = inr nodes -> Forall built nodes.
Proof.
  destruct els as [l|]; [|discriminate]. cbn [deserializeElements].
  apply each_element_built. apply Forall_forall. intros e _.
  apply deserializeElement_built.
Qed.

End OoxmlProperties.

(** *** The transformer on a run *)
Section OoxmlExamples.
Import OoxmlTransformer.

(** A run holding run properties and the text [Hello]:
    [<w:r><w:rPr><w:color w:color="000000"/></w:rPr><w:t>Hello</w:t></w:r>]. *)
Definition hello_run : element :=
  Element (Some "w:r") None
    (Some [Element (Some "w:rPr") None
             (Some [Element (Some "w:color") (Some [("w:color", "000000")]) None None])
             None;
           Element (Some "w:t") None
             (Some [Element None None None (Some "Hello")]) None])
    None.

Definition prefix : string := "org.accordproject.commonmark.".

Lemma wrapper_is_transparent_witness :
  each_element prefix [hello_run]
  = inr [VObj [("$class", VStr "org.accordproject.commonmark.Text");
               ("text", VStr "Hello")]].
Proof.
  exact (wrapper_is_transparent prefix hello_run [] eq_refl).
Defined.

Lemma deserializeElements_built_witness :
  Forall (built prefix)
    [VObj [class prefix "Paragraph";
           ("nodes", VArr [VObj [class prefix "Text"; ("text", VStr "Hello")]])]].
Proof.
  exact (deserializeElements_built prefix
           (Some [Element (Some "w:p") None
                    (Some [Element (Some "w:pPr") None None None; hello_run]) None])
           _ eq_refl).
Defined.

End OoxmlExamples.

(** *** Variables of a document *)
Section OoxmlVariables.
Import OoxmlTransformer.
Variable NS : string.

Lemma getId_first_tag (a : option (list (string * string))) (n t : option string)
  (before after more : list element) (tag : element) (attrs : list (string * string)) :
  forallb (fun e => negb (named "w:tag" e)) before = true ->
  named "w:tag" tag = true ->
  attributes tag = Some attrs ->
  getId (Some (Element n a (Some (before ++ tag :: after)%list) t :: more))
  = inr (attribute "w:val" attrs).
Proof.
  intros B T A. cbn [getId elements].
  induction before as [|e before IH]; cbn [app].
  - now rewrite T, A.
  - cbn [forallb] in B. apply andb_prop in B as [E B].
    apply negb_true_iff in E. rewrite E. now apply IH.
Qed.

Lemma getValue_first_text (a a' : option (list (string * string)))
  (n n' t t' : option string) (pr x : element)
  (before after others more xs : list element) (run : element) :
  forallb (fun e => negb (named "w:t" e)) before = true ->
  named "w:t" run = true ->
  elements run = Some (x :: xs) ->
  getValue
    (Some (pr
           :: Element n a
                (Some (Element n' a' (Some (before ++ run :: after)%list) t' :: others)) t
           :: more))
  = inr (js (text x)).
Proof.
  intros B T A. cbn [getValue elements].
  induction before as [|e before IH]; cbn [app].
  - now rewrite T, A.
  - cbn [forallb] in B. apply andb_prop in B as [E B].
    apply negb_true_iff in E. rewrite E. now apply IH.
Qed.

(** X22.  A [w:sdt] element becomes a Variable node whose id is the
    [w:val] of the first [w:tag] among the children of its first child,
    and whose value is the text of the first child of the first [w:t]
    among the children of the first child of its second child; later
    tags and texts and further children of the element are not read.  A
    [w:sdt] element with fewer than two children raises. *)
Theorem variable_id_and_value
  (a a1 a2 a3 : option (list (string * string))) (n1 n2 n3 t t1 t2 t3 : option string)
  (before after before' after' others more xs : list element)
  (tag run x : element) (attrs : list (string * string)) :
  forallb (fun e => negb (named "w:tag" e)) before = true ->
  named "w:tag" tag = true ->
  attributes tag = Some attrs ->
  forallb (fun e => negb (named "w:t" e)) before' = true ->
  named "w:t" run = true ->
  elements run = Some (x :: xs) ->
  deserializeElement NS
    (Element (Some "w:sdt") a
       (Some (Element n1 a1 (Some (before ++ tag :: after)%list) t1
              :: Element n2 a2
                   (Some (Element n3 a3 (Some (before' ++ run :: after')%list) t3
                          :: others)) t2
              :: more)) t)
  = inr (VObj [class NS "Variable"; ("id", attribute "w:val" attrs);
               ("value", js (text x))])
  /\ (forall l, length l < 2 ->
        deserializeElement NS (Element (Some "w:sdt") a (Some l) t) = inl TypeError).
Proof.
  intros B T A B' T' A'. split.
  - cbn [deserializeElement named name String.eqb Ascii.eqb Bool.eqb].
    rewrite (getId_first_tag a1 n1 t1 before after _ tag attrs B T A).
    now rewrite (getValue_first_text a2 a3 n2 n3 t2 t3 _ x before' after' others
                   more xs run B' T' A').
  - intros l L. cbn [deserializeElement named name String.eqb Ascii.eqb Bool.eqb].
    destruct l as [|pr [|c l]]; [reflexivity| |cbn [length] in L; lia].
    destruct (getId (Some [pr])) as [[]|id]; reflexivity.
Qed.

End OoxmlVariables.

Section OoxmlVariableExamples.
Import OoxmlTransformer.

(** The content control of the variable [shipper] with the value
    [Acme]. *)
Definition shipper : element :=
  Element (Some "w:sdt") None
    (Some [Element (Some "w:sdtPr") None
             (Some [Element (Some "w:alias") (Some [("w:val", "Shipper")]) None None;
                    Element (Some "w:tag") (Some [("w:val", "shipper")]) None None])
             None;
           Element (Some "w:sdtContent") None
             (Some [Element (Some "w:r") None
                      (Some [Element (Some "w:rPr") None None None;
                             Element (Some "w:t") None
                               (Some [Element None None None (Some "Acme")]) None])
                      None])
             None])
    None.

Lemma variable_id_and_value_witness :
  deserializeElement prefix shipper
  = inr (VObj [class prefix "Variable"; ("id", VStr "shipper");
               ("value", VStr "Acme")]).
Proof.
  exact (proj1 (variable_id_and_value prefix None None None None
                  (Some "w:sdtPr") (Some "w:sdtContent") (Some "w:r")
                  None None None None
                  [Element (Some "w:alias") (Some [("w:val", "Shipper")]) None None]
                  [] [Element (Some "w:rPr") None None None] [] [] [] []
                  (Element (Some "w:tag") (Some [("w:val", "shipper")]) None None)
                  (Element (Some "w:t") None
                     (Some [Element None None None (Some "Acme")]) None)
                  (Element None None None (Some "Acme"))
                  [("w:val", "shipper")]
                  eq_refl eq_refl eq_refl eq_refl eq_refl eq_refl)).
Defined.

End OoxmlVariableExamples.
